(** * Raiden: the test helpers, the API list objects, the console wait loop
      and the mediated-transfer core.

    Part I holds the definitions.  The modules [E2E], [Objects] and
    [Console] embed the Python functions of
    [raiden/tests/integration/test_e2e.py], [raiden/api/objects.py] and
    [raiden/ui/console.py]; the module [Core] models the channel ledger,
    the route model, the three transfer roles and the state manager, whose
    code is imported by the tests only, from the specification.  Part II
    holds the theorems. *)

From Stdlib Require Import ZArith NArith Lia List String Ascii Bool Sorted.
From stdpp Require Import base option list gmap strings fin_maps.

Local Open Scope string_scope.
Local Open Scope Z_scope.
Local Open Scope list_scope.

(* ===================================================================== *)
(** * Part I: definitions                                                 *)
(* ===================================================================== *)

(** ** Python outcomes: a call returns a value or raises *)

Module Py.

Inductive exn :=
| AssertionError (msg : string)
| AttributeError (name : string)
| TypeError (msg : string).

Inductive outcome (A : Type) :=
| Returns (a : A)
| Raises (e : exn).
Arguments Returns {A} a.
Arguments Raises {A} e.

Definition bind {A B} (m : outcome A) (k : A -> outcome B) : outcome B :=
  match m with
  | Returns a => k a
  | Raises e => Raises e
  end.

(** [assert cond, msg] *)
Definition py_assert (cond : bool) (msg : string) : outcome unit :=
  if cond then Returns tt else Raises (AssertionError msg).

End Py.

#[global] Instance outcome_ret : MRet Py.outcome := @Py.Returns.
#[global] Instance outcome_bind : MBind Py.outcome :=
  fun A B k m => Py.bind m k.

(** Runs the binds whose first computation is known. *)
Ltac run_bind := cbn [mbind outcome_bind Py.bind].

(** ** raiden/tests/integration/test_e2e.py *)

Module E2E.
Import Py.

(** The attributes of a [MediatedTransfer] message that the helpers read.
    Addresses, token addresses and hashlocks are byte strings. *)
Record Lock := mkLock {
  amount : Z;
  expiration : Z;
  hashlock : string;
}.

Record MediatedTransfer := mkMediatedTransfer {
  identifier : Z;
  token : string;
  lock : Lock;
  target : string;
  initiator : string;
  recipient : string;
  sender : string;
}.

(** What [get_sent_transfer] may hand over: a [MediatedTransfer] or a
    message of another class (named by its class). *)
Inductive message :=
| IsMediatedTransfer (t : MediatedTransfer)
| OtherMessage (cls : string).

(** [isinstance(t, MediatedTransfer)] *)
Definition isinstance_MediatedTransfer (t : message) : bool :=
  match t with
  | IsMediatedTransfer _ => true
  | OtherMessage _ => false
  end.

Definition mediated_transfer_almost_equal (first second : MediatedTransfer)
  : outcome unit :=
  py_assert (bool_decide (identifier first = identifier second))
            "identifier doesn't match" ;;
  py_assert (bool_decide (token first = token second))
            "token address doesn't match" ;;
  py_assert (bool_decide (amount (lock first) = amount (lock second)))
            "lock amount doesn't match" ;;
  py_assert (bool_decide (hashlock (lock first) = hashlock (lock second)))
            "lock hashlock doesn't match" ;;
  py_assert (bool_decide (target first = target second))
            "target doesn't match" ;;
  py_assert (bool_decide (initiator first = initiator second))
            "initiator doesn't match".

(** Attribute access on a message that is not a [MediatedTransfer]. *)
Definition as_mediated (t : message) : outcome MediatedTransfer :=
  match t with
  | IsMediatedTransfer m => Returns m
  | OtherMessage _ => Raises (AttributeError "identifier")
  end.

(** The body of [for first, second in zip(...)]. *)
Definition path_step (pair : message * message) : outcome unit :=
  first ← as_mediated (fst pair) ;
  second ← as_mediated (snd pair) ;
  mediated_transfer_almost_equal first second ;;
  py_assert (bool_decide (recipient first = sender second))
            "transfers are out-of-order" ;;
  py_assert (expiration (lock first) >? expiration (lock second))
            "lock expiration is not decreasing".

Fixpoint for_each {A} (body : A -> outcome unit) (xs : list A) : outcome unit :=
  match xs with
  | [] => Returns tt
  | x :: rest => body x ;; for_each body rest
  end.

Definition assert_path_mediated_transfer (transfers : list message)
  : outcome unit :=
  py_assert (forallb isinstance_MediatedTransfer transfers)
            "all transfers must be of type MediatedTransfer" ;;
  for_each path_step (zip (removelast transfers) (tail transfers)).

(** The six attributes [mediated_transfer_almost_equal] compares. *)
Definition same_transfer (first second : MediatedTransfer) : Prop :=
  identifier first = identifier second /\
  token first = token second /\
  amount (lock first) = amount (lock second) /\
  hashlock (lock first) = hashlock (lock second) /\
  target first = target second /\
  initiator first = initiator second.

(** [first] and [second] are consecutive hops of the path [transfers]. *)
Definition consecutive (transfers : list message) (first second : message) : Prop :=
  exists i : nat, transfers !! i = Some first /\ transfers !! S i = Some second.

(** The path of [test_fullnetwork]: app0 -> app3 -> app2, amount 5. *)
Definition hop_0_3 : MediatedTransfer :=
  mkMediatedTransfer 1 "token" (mkLock 5 40 "hashlock") "app2" "app0" "app3" "app0".
Definition hop_3_2 : MediatedTransfer :=
  mkMediatedTransfer 1 "token" (mkLock 5 30 "hashlock") "app2" "app0" "app2" "app3".
Definition path_0_3_2 : list message :=
  [IsMediatedTransfer hop_0_3; IsMediatedTransfer hop_3_2].

(** *** Log entries: [check_nested_attrs] and [must_contain_entry] *)

(** The classes of the dictionaries.  The repository runs on Python 3
    (console.py calls [super()] without arguments), whose built-in [dict]
    has no [iteritems]; a subclass of [dict] may define [iteritems()] as the
    [dict] of Python 2 did, yielding its items. *)
Inductive dict_class :=
| dict_
| dict_with_iteritems (name : string).

(** Python values as the helpers see them: an instance of [dict] or of a
    subclass of it is kept as its class and its items in iteration order;
    another object carries the names of its class and of the bases of
    that class, and its instance attributes. *)
#[local] Set Warnings "-register-all".
Inductive pyval :=
| PyNone
| PyInt (z : Z)
| PyStr (s : string)
| PyDict (cls : dict_class) (items : list (string * pyval))
| PyObj (mro : list string) (attrs : list (string * pyval)).

Definition mro_of (item : pyval) : list string :=
  match item with
  | PyNone => ["NoneType"; "object"]
  | PyInt _ => ["int"; "object"]
  | PyStr _ => ["str"; "object"]
  | PyDict dict_ _ => ["dict"; "object"]
  | PyDict (dict_with_iteritems name) _ => [name; "dict"; "object"]
  | PyObj mro _ => mro
  end.

(** [isinstance(item, type_)] *)
Definition isinstance (item : pyval) (type_ : string) : bool :=
  existsb (String.eqb type_) (mro_of item).

Section Matching.

(** [getattr(item, name)] and [a != b] are Python's own: what they give
    depends on the classes of the values, which are not in this module. *)
Variable getattr : pyval -> string -> outcome pyval.
Variable py_ne : pyval -> pyval -> bool.

(** The test made on one [(name, value)] pair once [item_value] is read:
    [check_nested_attrs(item_value, value)] when [value] is a [dict], and
    [not (item_value != value)] otherwise.  On a [dict] this is
    [check_nested_attrs] itself: [data.iteritems()] is looked up first and
    raises [AttributeError] on the built-in [dict]; where the class
    defines it, the loop runs over the items. *)
Fixpoint check_value (item_value value : pyval) {struct value} : outcome bool :=
  match value with
  | PyDict dict_ _ => Raises (AttributeError "iteritems")
  | PyDict (dict_with_iteritems _) data =>
      (fix loop (data : list (string * pyval)) : outcome bool :=
         match data with
         | [] => Returns true
         | (name, value) :: rest =>
             item_value' ← getattr item_value name ;
             ok ← check_value item_value' value ;
             if (ok : bool) then loop rest else Returns false
         end) data
  | _ => Returns (negb (py_ne item_value value))
  end.

(** [check_nested_attrs(item, data)] for [data] a dictionary of class
    [cls] with the items [data]. *)
Definition check_nested_attrs (item : pyval) (cls : dict_class)
    (data : list (string * pyval)) : outcome bool :=
  check_value item (PyDict cls data).

Fixpoint must_contain_entry (item_list : list pyval) (type_ : string)
    (cls : dict_class) (data : list (string * pyval)) : outcome bool :=
  match item_list with
  | [] => Returns false
  | item :: rest =>
      if isinstance item type_ then
        ok ← check_nested_attrs item cls data ;
        if (ok : bool) then Returns true
        else must_contain_entry rest type_ cls data
      else must_contain_entry rest type_ cls data
  end.

End Matching.

(** The event that [test_fullnetwork] looks for with [{}], and the state
    change it looks for with a sender and a secret. *)
Definition EventTransferSentSuccess_sent : pyval :=
  PyObj ["EventTransferSentSuccess"; "Event"; "object"]
        [("identifier", PyInt 1); ("amount", PyInt 5)].
Definition ReceiveSecretReveal_app3 : pyval :=
  PyObj ["ReceiveSecretReveal"; "StateChange"; "object"]
        [("sender", PyStr "app3"); ("secret", PyStr "s")].
Definition expect_sender_and_secret : list (string * pyval) :=
  [("sender", PyStr "app3"); ("secret", PyStr "s")].

End E2E.

(** ** raiden/api/objects.py *)

Module Objects.
Import Py.

(** Objects live in a store and are named by their identity. *)
Abbreviation loc := positive.

(** The built-in [list], [FlatList], its five subclasses, and the classes
    of the module that are not lists. *)
Inductive pyclass :=
| list_
| FlatList
| ChannelList
| TokensList
| AddressList
| PartnersPerTokenList
| EventsList
| NotAList (name : string).

#[global] Instance pyclass_eq_dec : EqDecision pyclass.
Proof. solve_decision. Defined.

(** The base named in the [class] statement. *)
Definition base (c : pyclass) : option pyclass :=
  match c with
  | list_ => None
  | FlatList => Some list_
  | ChannelList | TokensList | AddressList | PartnersPerTokenList
  | EventsList => Some FlatList
  | NotAList _ => None
  end.

(** The class and its bases, the nearest first; [depth] bounds the walk. *)
Fixpoint bases_from (depth : nat) (c : pyclass) : list pyclass :=
  match depth with
  | O => []
  | S depth' =>
      c :: match base c with
           | Some b => bases_from depth' b
           | None => []
           end
  end.

Definition mro (c : pyclass) : list pyclass := bases_from 3 c.

(** [issubclass(c, target)] *)
Definition issubclass (c target : pyclass) : bool :=
  bool_decide (target ∈ mro c).

(** An object: its class and, for a list, the references it holds. *)
Record pyobject := mkObject {
  ob_type : pyclass;
  ob_item : list loc;
}.

Abbreviation store := (gmap loc pyobject).

(** [list(iterable)]: a new list object holding the references that
    iterating [iterable] yields. *)
Definition py_list (h : store) (iterable : loc) : outcome (loc * store) :=
  match h !! iterable with
  | Some o =>
      if issubclass (ob_type o) list_ then
        let r := fresh (dom h) in
        Returns (r, <[r := mkObject list_ (ob_item o)]> h)
      else Raises (TypeError "object is not iterable")
  | None => Raises (TypeError "object is not iterable")
  end.

(** The property [FlatList.data]: [return list(self)]. *)
Definition data (h : store) (self : loc) : outcome (loc * store) :=
  match h !! self with
  | Some o =>
      if issubclass (ob_type o) FlatList then py_list h self
      else Raises (AttributeError "data")
  | None => Raises (AttributeError "data")
  end.

(** [a == b] on two lists of the store whose elements are compared by
    identity. *)
Definition list_eq (h : store) (a b : loc) : bool :=
  match h !! a, h !! b with
  | Some oa, Some ob => bool_decide (ob_item oa = ob_item ob)
  | _, _ => false
  end.

(** A [ChannelList] of two channels. *)
Definition two_channels : store :=
  <[1%positive := mkObject (NotAList "Channel") []]>
  (<[2%positive := mkObject (NotAList "Channel") []]>
  (<[3%positive := mkObject ChannelList [1%positive; 2%positive]]> ∅)).

End Objects.

(** ** raiden/ui/console.py *)

Module Console.

Section WaitForContract.

(** Python numbers: the readings of [time.time()] and the timeout, with the
    [+], [>] and truth value Python gives them. *)
Variable number : Type.
Variable add : number -> number -> number.
Variable gt : number -> number -> bool.
Variable truth : number -> bool.

(** The node and the clock as the call meets them: what the [n]-th
    [getCode] query returns, and the [n]-th reading of [time.time()]. *)
Record world := mkWorld {
  getCode : nat -> list Byte.byte;
  time : nat -> number;
}.

(** [timeout and start_time + timeout > current_time] *)
Definition timeout_and (timeout : option number) (start_time current_time : number)
  : bool :=
  match timeout with
  | None => false
  | Some t => truth t && gt (add start_time t) current_time
  end.

(** The [while] loop; [queries] counts the [getCode] queries made so far
    (the clock has then been read [queries + 1] times).  [None]: the loop
    is still running when [fuel] tests of its condition are spent. *)
Fixpoint wait_loop (w : world) (timeout : option number) (start_time : number)
    (result : list Byte.byte) (current_time : number) (queries : nat)
    (fuel : nat) : option bool :=
  match fuel with
  | O => None
  | S fuel' =>
      if (length result =? 0)%nat then
        if timeout_and timeout start_time current_time then Some false
        else
          let result := getCode w queries in
          let current_time := time w (S queries) in
          wait_loop w timeout start_time result current_time (S queries) fuel'
      else Some (0 <? length result)%nat
  end.

Definition wait_for_contract (w : world) (timeout : option number) (fuel : nat)
  : option bool :=
  let start_time := time w 0 in
  let result := getCode w 0 in
  let current_time := time w 1 in
  wait_loop w timeout start_time result current_time 1 fuel.

End WaitForContract.

(** A clock set back between the two readings, and a contract mined at the
    second query; numbers are integers. *)
Definition clock_set_back : world Z :=
  mkWorld Z (fun n => match n with O => [] | _ => [Byte.x60] end)
            (fun n => match n with O => 5 | _ => 3 end).

(** A contract not mined yet, one second after the start. *)
Definition not_mined_yet : world Z :=
  mkWorld Z (fun _ => []) (fun n => Z.of_nat n).

Definition Z_truth (z : Z) : bool := negb (z =? 0).

End Console.

(** ** The mediated-transfer core

    The modules [raiden.transfer], [raiden.transfer.mediated_transfer] and
    the channel code are imported by the tests but are not among the source
    files; the definitions of [Core] follow sections 3, 4 and 6 of the
    specification. *)

Module Core.

Local Open Scope N_scope.

(** Addresses, channel and transfer identifiers, hashlocks, secrets,
    locksroots and signatures are opaque words; token amounts and nonces
    are naturals; block heights and timeouts are integers. *)

Record Lock := mkLock {
  hashlock : N;
  amount : N;
  expiration : Z;
}.

Record BalanceProof := mkBalanceProof {
  proof_channel : N;
  nonce : N;
  transferred_amount : N;
  locksroot : N;
  signature : N;
}.

(** Modelled from the spec: the cryptographic primitives adapter (section 2,
    component 1), which is not among the source files: hashing for
    hashlocks and locksroots, signature verification for balance proofs,
    and the signature the node's own proofs are sent with.  No law is
    assumed of it. *)
Class CryptoAdapter := {
  sha3 : N -> N;
  hash_locks : list Lock -> N;
  verify_signature : N -> BalanceProof -> bool;
  sign : N -> BalanceProof -> N;
}.

(** Modelled from the spec: the three margins sections 4.3 to 4.5 name
    without giving their values, and the settings of a channel that the
    [ChannelOpened] notice does not carry. *)
Class ProtocolParams := {
  margin : Z;
  reveal_timeout_margin : Z;
  minimum_reveal_margin : Z;
  default_reveal_timeout : Z;
  default_token : N;
}.

Inductive ChannelState := unopened | opened | closed | settled.

Record Channel := mkChannel {
  channel_identifier : N;
  token_address : N;
  participant_self : N;
  participant_partner : N;
  settle_timeout : Z;
  reveal_timeout : Z;
  own_deposit : N;
  partner_deposit : N;
  own_balance_proof : BalanceProof;
  partner_balance_proof : BalanceProof;
  pending_locks : gmap N Lock;
  state : ChannelState;
}.

Inductive LedgerError :=
| InvalidSignature
| StaleNonce
| OverspendDeposit
| DuplicateHashlock
| InsufficientBalance
| UnknownHashlock.

Inductive result (A : Type) :=
| Ok (a : A)
| Err (e : LedgerError).
Arguments Ok {A} a.
Arguments Err {A} e.

(** *** Channel ledger (section 4.1) *)

Definition set_own_deposit (c : Channel) (d : N) : Channel :=
  mkChannel (channel_identifier c) (token_address c) (participant_self c)
    (participant_partner c) (settle_timeout c) (reveal_timeout c)
    d (partner_deposit c) (own_balance_proof c) (partner_balance_proof c)
    (pending_locks c) (state c).

Definition set_partner_deposit (c : Channel) (d : N) : Channel :=
  mkChannel (channel_identifier c) (token_address c) (participant_self c)
    (participant_partner c) (settle_timeout c) (reveal_timeout c)
    (own_deposit c) d (own_balance_proof c) (partner_balance_proof c)
    (pending_locks c) (state c).

Definition set_own_balance_proof (c : Channel) (p : BalanceProof) : Channel :=
  mkChannel (channel_identifier c) (token_address c) (participant_self c)
    (participant_partner c) (settle_timeout c) (reveal_timeout c)
    (own_deposit c) (partner_deposit c) p (partner_balance_proof c)
    (pending_locks c) (state c).

Definition set_partner_balance_proof (c : Channel) (p : BalanceProof) : Channel :=
  mkChannel (channel_identifier c) (token_address c) (participant_self c)
    (participant_partner c) (settle_timeout c) (reveal_timeout c)
    (own_deposit c) (partner_deposit c) (own_balance_proof c) p
    (pending_locks c) (state c).

Definition set_pending_locks (c : Channel) (locks : gmap N Lock) : Channel :=
  mkChannel (channel_identifier c) (token_address c) (participant_self c)
    (participant_partner c) (settle_timeout c) (reveal_timeout c)
    (own_deposit c) (partner_deposit c) (own_balance_proof c)
    (partner_balance_proof c) locks (state c).

Definition set_state (c : Channel) (s : ChannelState) : Channel :=
  mkChannel (channel_identifier c) (token_address c) (participant_self c)
    (participant_partner c) (settle_timeout c) (reveal_timeout c)
    (own_deposit c) (partner_deposit c) (own_balance_proof c)
    (partner_balance_proof c) (pending_locks c) s.

(** The sum of the amounts of the pending locks. *)
Definition locked_amount (c : Channel) : N :=
  map_fold (fun _ l acc => amount l + acc) 0 (pending_locks c).

Definition total_deposit (c : Channel) : N := own_deposit c + partner_deposit c.

(** The deposit invariant of section 3. *)
Definition no_overspend (c : Channel) : Prop :=
  transferred_amount (own_balance_proof c) + locked_amount c <= total_deposit c.

Inductive Side := Own | Partner.

(** The side of the channel an address is, if it is a participant. *)
Definition side_of (c : Channel) (sender : N) : option Side :=
  if sender =? participant_self c then Some Own
  else if sender =? participant_partner c then Some Partner
  else None.

Definition recorded_proof (c : Channel) (s : Side) : BalanceProof :=
  match s with
  | Own => own_balance_proof c
  | Partner => partner_balance_proof c
  end.

Definition record_proof (c : Channel) (s : Side) (p : BalanceProof) : Channel :=
  match s with
  | Own => set_own_balance_proof c p
  | Partner => set_partner_balance_proof c p
  end.

Section Ledger.
Context {crypto : CryptoAdapter}.

(** Modelled from the spec: [apply_balance_proof(channel, proof, sender)]
    of section 4.1, which is not among the source files.  The call returns
    the channel as it leaves it together with the delta in transferred
    amount or the error; the checks come in the order the spec names the
    errors, and a sender that is no participant of the channel has no valid
    signature on it. *)
Definition apply_balance_proof (c : Channel) (proof : BalanceProof) (sender : N)
  : Channel * result Z :=
  match side_of c sender with
  | None => (c, Err InvalidSignature)
  | Some s =>
      if negb (verify_signature sender proof) then (c, Err InvalidSignature)
      else if negb (nonce (recorded_proof c s) <? nonce proof)
           then (c, Err StaleNonce)
      else if total_deposit c <? transferred_amount proof + locked_amount c
           then (c, Err OverspendDeposit)
      else (record_proof c s proof,
            Ok (Z.of_N (transferred_amount proof)
                - Z.of_N (transferred_amount (recorded_proof c s)))%Z)
  end.

(** Modelled from the spec: [add_lock(channel, lock)] of section 4.1. *)
Definition add_lock (c : Channel) (lock : Lock) : Channel * result unit :=
  match pending_locks c !! hashlock lock with
  | Some _ => (c, Err DuplicateHashlock)
  | None =>
      if total_deposit c
         <? transferred_amount (own_balance_proof c) + locked_amount c + amount lock
      then (c, Err InsufficientBalance)
      else (set_pending_locks c (<[hashlock lock := lock]> (pending_locks c)), Ok tt)
  end.

(** Modelled from the spec: [remove_lock(channel, hashlock)] of section 4.1. *)
Definition remove_lock (c : Channel) (h : N) : Channel * result unit :=
  match pending_locks c !! h with
  | None => (c, Err UnknownHashlock)
  | Some _ => (set_pending_locks c (delete h (pending_locks c)), Ok tt)
  end.

(** Modelled from the spec: [compute_locksroot(channel)] of section 4.1;
    the locks are aggregated in the order of the map, which depends on its
    contents only. *)
Definition compute_locksroot (c : Channel) : N :=
  hash_locks (snd <$> map_to_list (pending_locks c)).

End Ledger.

(** Modelled from the spec: the effect of [ChannelNewDeposit{channel_identifier,
    participant, new_total_deposit}] (section 6) on the channel.  The notice
    carries the participant's total deposit, which only grows on chain: a
    notice with a lower total, or for an address that is no participant, is
    not applied. *)
Definition apply_deposit (c : Channel) (participant new_total_deposit : N) : Channel :=
  match side_of c participant with
  | Some Own =>
      if own_deposit c <=? new_total_deposit
      then set_own_deposit c new_total_deposit else c
  | Some Partner =>
      if partner_deposit c <=? new_total_deposit
      then set_partner_deposit c new_total_deposit else c
  | None => c
  end.

Definition empty_proof (channel : N) : BalanceProof := mkBalanceProof channel 0 0 0 0.

(** The channel an on-chain [ChannelOpened] notice creates. *)
Definition new_channel (id token self partner : N) (settle reveal : Z) : Channel :=
  mkChannel id token self partner settle reveal 0 0
            (empty_proof id) (empty_proof id) ∅ opened.

Section Reachable.
Context {crypto : CryptoAdapter}.

(** The reachable channel states: from an opened channel, by applied
    deposits, lock additions and removals that succeed, balance proofs that
    are accepted, and the on-chain close and settle. *)
Inductive reachable : Channel -> Prop :=
| reach_opened id token self partner settle reveal :
    reachable (new_channel id token self partner settle reveal)
| reach_deposit c participant total :
    reachable c -> reachable (apply_deposit c participant total)
| reach_add_lock c lock c' :
    reachable c -> add_lock c lock = (c', Ok tt) -> reachable c'
| reach_remove_lock c h c' :
    reachable c -> remove_lock c h = (c', Ok tt) -> reachable c'
| reach_balance_proof c proof sender c' delta :
    reachable c -> apply_balance_proof c proof sender = (c', Ok delta) ->
    reachable c'
| reach_state c s :
    reachable c -> reachable (set_state c s).

(** Every channel of the map is a reachable ledger state. *)
Definition channels_reachable (channels : gmap N Channel) : Prop :=
  map_Forall (fun _ c => reachable c) channels.

(** The nonces of the proofs of [proofs] that [apply_balance_proof] accepts
    when they are applied in order, all from [sender]. *)
Fixpoint accepted_nonces (c : Channel) (sender : N) (proofs : list BalanceProof)
  : list N :=
  match proofs with
  | [] => []
  | proof :: rest =>
      match apply_balance_proof c proof sender with
      | (c', Ok _) => nonce proof :: accepted_nonces c' sender rest
      | (c', Err _) => accepted_nonces c' sender rest
      end
  end.

End Reachable.

(** *** Route model (section 4.2) *)

Record Route := mkRoute {
  node_address : N;
  route_channel : N;
  available_balance : N;
  route_settle_timeout : Z;
  route_reveal_timeout : Z;
  closed_block : option Z;
}.

Record RoutesState := mkRoutes {
  available : list Route;
  ignored : list Route;
  refunded : list Route;
  canceled : list Route;
}.

(** A route meets the balance requirement and is not excluded. *)
Definition usable (exclude : gset N) (required_balance : N) (route : Route) : bool :=
  bool_decide (route_channel route ∉ exclude)
  && (required_balance <=? available_balance route).

(** Modelled from the spec: [next_route(routes_state, exclude,
    required_balance)] of section 4.2; [None] is "no route". *)
Definition next_route (routes : RoutesState) (exclude : gset N)
    (required_balance : N) : option Route :=
  List.find (usable exclude required_balance) (available routes).

(** Routes are identified by their channel. *)
Definition same_route (a b : Route) : bool := route_channel a =? route_channel b.

Definition leave_available (routes : RoutesState) (route : Route) : list Route :=
  List.filter (fun r => negb (same_route route r)) (available routes).

(** Modelled from the spec: [mark_refunded], [mark_ignored] and
    [mark_canceled] of section 4.2: the route moves out of [available];
    nothing changes when it has already left it. *)
Definition mark_refunded (routes : RoutesState) (route : Route) : RoutesState :=
  if existsb (same_route route) (available routes) then
    mkRoutes (leave_available routes route) (ignored routes)
             (refunded routes ++ [route]) (canceled routes)
  else routes.

Definition mark_ignored (routes : RoutesState) (route : Route) : RoutesState :=
  if existsb (same_route route) (available routes) then
    mkRoutes (leave_available routes route) (ignored routes ++ [route])
             (refunded routes) (canceled routes)
  else routes.

Definition mark_canceled (routes : RoutesState) (route : Route) : RoutesState :=
  if existsb (same_route route) (available routes) then
    mkRoutes (leave_available routes route) (ignored routes)
             (refunded routes) (canceled routes ++ [route])
  else routes.

(** *** Transfers, state changes and events (sections 3 and 6) *)

Record Transfer := mkTransfer {
  identifier : N;
  token : N;
  transfer_amount : N;
  initiator : N;
  target : N;
  transfer_hashlock : N;
  secret : option N;
  transfer_expiration : option Z;
}.

Definition with_secret (t : Transfer) (s : N) : Transfer :=
  mkTransfer (identifier t) (token t) (transfer_amount t) (initiator t)
             (target t) (transfer_hashlock t) (Some s) (transfer_expiration t).

Definition with_expiration (t : Transfer) (e : Z) : Transfer :=
  mkTransfer (identifier t) (token t) (transfer_amount t) (initiator t)
             (target t) (transfer_hashlock t) (secret t) (Some e).

Inductive StateChange :=
| Block (block_number : Z)
| ActionInitInitiator (transfer : Transfer) (routes : RoutesState)
| ActionInitMediator (from_route : Route) (from_transfer : Transfer)
                     (routes : RoutesState)
| ActionInitTarget (from_route : Route) (from_transfer : Transfer)
| ReceiveSecretRequest (hashlock amount sender : N)
| ReceiveSecretReveal (secret sender : N)
| ReceiveBalanceProof (proof : BalanceProof) (secret sender : N)
| ReceiveTransferRefund (hashlock sender : N)
| ChannelOpened (channel_identifier self partner : N) (settle_timeout : Z)
| ChannelNewDeposit (channel_identifier participant new_total_deposit : N)
| ChannelClosed (channel_identifier closing_address : N) (block_number : Z)
| ChannelSettled (channel_identifier : N) (block_number : Z)
| SecretRevealedOnChain (channel_identifier secret : N).

Inductive Event :=
| SendMediatedTransfer (recipient : N) (transfer : Transfer) (lock : Lock)
| SendSecretRequest (recipient hashlock amount : N)
| SendRevealSecret (recipient secret : N)
| SendBalanceProof (recipient : N) (proof : BalanceProof) (secret : N)
| SendTransferRefund (recipient hashlock amount : N)
| EventTransferSentSuccess (identifier : N)
| EventTransferSentFailed (identifier : N) (reason : string)
| EventUnlockSuccess (hashlock : N)
| EventTransferReceivedSuccess (identifier : N)
| EventTransferReceivedFailed (identifier : N) (reason : string).

(** *** Ledger operations on the channels of the aggregate state

    A role state machine names a channel by its identifier (section 9).  A
    ledger error, a channel that does not exist or one that is settled (it
    is never mutated again, section 3) gives [None]: the state change is
    discarded and nothing of it is applied (sections 4.6 and 7). *)

Section Roles.
Context {crypto : CryptoAdapter} {params : ProtocolParams}.

Definition is_settled (c : Channel) : bool :=
  match state c with
  | settled => true
  | _ => false
  end.

Definition on_channel {A} (channels : gmap N Channel) (id : N)
    (op : Channel -> Channel * result A) : option (gmap N Channel * A) :=
  c ← channels !! id ;
  if is_settled c then None
  else match op c with
       | (c', Ok a) => Some (<[id := c']> channels, a)
       | (_, Err _) => None
       end.

Definition lock_of (t : Transfer) (expiration : Z) : Lock :=
  mkLock (transfer_hashlock t) (transfer_amount t) expiration.

(** The node's next proof on a channel once the lock [h] of [amount] is
    unlocked. *)
Definition next_own_proof (c : Channel) (h amount : N) : BalanceProof :=
  let unsigned :=
    mkBalanceProof (channel_identifier c)
      (nonce (own_balance_proof c) + 1)
      (transferred_amount (own_balance_proof c) + amount)
      (compute_locksroot (set_pending_locks c (delete h (pending_locks c))))
      0 in
  mkBalanceProof (proof_channel unsigned) (nonce unsigned)
    (transferred_amount unsigned) (locksroot unsigned)
    (sign (participant_self c) unsigned).

(** "Apply the outgoing balance proof, remove the outgoing lock." *)
Definition unlock_own (channels : gmap N Channel) (id h amount : N)
  : option (gmap N Channel * BalanceProof) :=
  c ← channels !! id ;
  let proof := next_own_proof c h amount in
  '(channels1, _) ← on_channel channels id
     (fun c => apply_balance_proof c proof (participant_self c)) ;
  '(channels2, _) ← on_channel channels1 id (fun c => remove_lock c h) ;
  Some (channels2, proof).

(** "Apply the incoming balance proof, remove the incoming lock." *)
Definition unlock_partner (channels : gmap N Channel) (id : N)
    (proof : BalanceProof) (sender h : N) : option (gmap N Channel) :=
  '(channels1, _) ← on_channel channels id
     (fun c => apply_balance_proof c proof sender) ;
  '(channels2, _) ← on_channel channels1 id (fun c => remove_lock c h) ;
  Some channels2.

(** *** Initiator (section 4.3) *)

Inductive InitiatorPhase :=
| I_init | I_route_selected | I_revealed_secret | I_completed | I_failed.

Record InitiatorState := mkInitiator {
  i_transfer : Transfer;
  i_routes : RoutesState;
  i_route : option Route;
  i_phase : InitiatorPhase;
}.

(** Modelled from the spec: the [init] logic of section 4.3, also entered
    again after a refund or an expiry. *)
Definition initiator_try_route (block : Z) (channels : gmap N Channel)
    (transfer : Transfer) (routes : RoutesState)
  : option (gmap N Channel * InitiatorState * list Event) :=
  match next_route routes ∅ (transfer_amount transfer) with
  | None =>
      Some (channels, mkInitiator transfer routes None I_failed,
            [EventTransferSentFailed (identifier transfer) "no route available"])
  | Some route =>
      let expiration := (block + route_settle_timeout route - margin)%Z in
      let lock := lock_of transfer expiration in
      '(channels', _) ← on_channel channels (route_channel route)
         (fun c => add_lock c lock) ;
      let transfer' := with_expiration transfer expiration in
      Some (channels',
            mkInitiator transfer' routes (Some route) I_route_selected,
            [SendMediatedTransfer (node_address route) transfer' lock])
  end.

(** [ActionInitInitiator{transfer, routes}]: the originator knows the secret
    from creation; a transfer without the pre-image of its hashlock is
    malformed. *)
Definition initiator_init (block : Z) (channels : gmap N Channel)
    (transfer : Transfer) (routes : RoutesState)
  : option (gmap N Channel * InitiatorState * list Event) :=
  match secret transfer with
  | Some s =>
      if sha3 s =? transfer_hashlock transfer
      then initiator_try_route block channels transfer routes
      else None
  | None => None
  end.

Definition initiator_step (block : Z) (channels : gmap N Channel)
    (st : InitiatorState) (sc : StateChange)
  : option (gmap N Channel * InitiatorState * list Event) :=
  let transfer := i_transfer st in
  match sc, i_phase st, i_route st, secret transfer with
  | ReceiveSecretRequest h amount sender, I_route_selected, Some route, Some s =>
      if (sender =? target transfer) && (amount =? transfer_amount transfer)
      then Some (channels,
                 mkInitiator transfer (i_routes st) (Some route) I_revealed_secret,
                 [SendRevealSecret (node_address route) s])
      else None
  | ReceiveSecretReveal s' sender, I_revealed_secret, Some route, Some s =>
      if s' =? s then
        '(channels', proof) ← unlock_own channels (route_channel route)
           (transfer_hashlock transfer) (transfer_amount transfer) ;
        Some (channels',
              mkInitiator transfer (i_routes st) (Some route) I_completed,
              [SendBalanceProof (node_address route) proof s;
               EventUnlockSuccess (transfer_hashlock transfer);
               EventTransferSentSuccess (identifier transfer)])
      else None
  | ReceiveTransferRefund h sender, I_route_selected, Some route, _ =>
      if sender =? node_address route
      then initiator_try_route block channels transfer
             (mark_refunded (i_routes st) route)
      else None
  | Block n, I_route_selected, Some route, _ =>
      match transfer_expiration transfer with
      | Some expiration =>
          if (expiration <? n)%Z
          then initiator_try_route n channels transfer
                 (mark_canceled (i_routes st) route)
          else None
      | None => None
      end
  | _, _, _, _ => None
  end.

(** *** Mediator (section 4.4) *)

Inductive MediatorPhase :=
| M_init | M_forwarded | M_revealing | M_completed | M_failed.

Record MediatorState := mkMediator {
  m_from_route : Route;
  m_from_transfer : Transfer;
  m_routes : RoutesState;
  m_route : option Route;
  m_expiration : Z;
  m_phase : MediatorPhase;
}.

(** Modelled from the spec: the route selection of section 4.4, also entered
    again when the outgoing attempt is abandoned. *)
Definition mediator_try_route (channels : gmap N Channel) (from_route : Route)
    (from_transfer : Transfer) (routes : RoutesState) (from_expiration : Z)
  : option (gmap N Channel * MediatorState * list Event) :=
  let expiration := (from_expiration - reveal_timeout_margin)%Z in
  match next_route routes {[route_channel from_route]}
                   (transfer_amount from_transfer) with
  | None =>
      Some (channels,
            mkMediator from_route from_transfer routes None expiration
                       M_failed,
            [SendTransferRefund (node_address from_route)
               (transfer_hashlock from_transfer) (transfer_amount from_transfer)])
  | Some route =>
      let lock := lock_of from_transfer expiration in
      '(channels', _) ← on_channel channels (route_channel route)
         (fun c => add_lock c lock) ;
      Some (channels',
            mkMediator from_route from_transfer routes (Some route) expiration
                       M_forwarded,
            [SendMediatedTransfer (node_address route)
               (with_expiration from_transfer expiration) lock])
  end.

(** [ActionInitMediator{from_route, from_transfer, routes}]; the incoming
    lock exists from the moment the transfer message is received
    (section 3), so it is entered in the incoming channel first. *)
Definition mediator_init (channels : gmap N Channel) (from_route : Route)
    (from_transfer : Transfer) (routes : RoutesState)
  : option (gmap N Channel * MediatorState * list Event) :=
  from_expiration ← transfer_expiration from_transfer ;
  '(channels1, _) ← on_channel channels (route_channel from_route)
     (fun c => add_lock c (lock_of from_transfer from_expiration)) ;
  mediator_try_route channels1 from_route from_transfer routes from_expiration.

Definition mediator_step (block : Z) (channels : gmap N Channel)
    (st : MediatorState) (sc : StateChange)
  : option (gmap N Channel * MediatorState * list Event) :=
  let transfer := m_from_transfer st in
  match sc, m_phase st, m_route st with
  | ReceiveSecretReveal s sender, M_forwarded, Some route =>
      if (sender =? node_address route) && (sha3 s =? transfer_hashlock transfer)
      then
        '(channels', proof) ← unlock_own channels (route_channel route)
           (transfer_hashlock transfer) (transfer_amount transfer) ;
        Some (channels',
              mkMediator (m_from_route st) (with_secret transfer s) (m_routes st)
                         (Some route) (m_expiration st) M_revealing,
              [SendBalanceProof (node_address route) proof s;
               SendRevealSecret (node_address (m_from_route st)) s])
      else None
  | ReceiveBalanceProof proof s sender, M_revealing, Some route =>
      if (sender =? node_address (m_from_route st))
         && (sha3 s =? transfer_hashlock transfer)
      then
        channels' ← unlock_partner channels (route_channel (m_from_route st))
           proof sender (transfer_hashlock transfer) ;
        Some (channels',
              mkMediator (m_from_route st) transfer (m_routes st) (Some route)
                         (m_expiration st) M_completed,
              [])
      else None
  | Block n, M_forwarded, Some route =>
      if (m_expiration st <? n)%Z then
        let routes := mark_canceled (m_routes st) route in
        match transfer_expiration transfer with
        | Some from_expiration =>
            if (from_expiration <? n)%Z then
              Some (channels,
                    mkMediator (m_from_route st) transfer routes None
                               (m_expiration st) M_failed,
                    [SendTransferRefund (node_address (m_from_route st))
                       (transfer_hashlock transfer) (transfer_amount transfer)])
            else mediator_try_route channels (m_from_route st) transfer routes
                   from_expiration
        | None => None
        end
      else None
  | _, _, _ => None
  end.

(** *** Target (section 4.5) *)

Inductive TargetPhase :=
| T_init | T_secret_requested | T_completed | T_failed.

Record TargetState := mkTarget {
  t_from_route : Route;
  t_from_transfer : Transfer;
  t_phase : TargetPhase;
}.

Definition target_init (block : Z) (channels : gmap N Channel)
    (from_route : Route) (from_transfer : Transfer)
  : option (gmap N Channel * TargetState * list Event) :=
  from_expiration ← transfer_expiration from_transfer ;
  '(channels1, _) ← on_channel channels (route_channel from_route)
     (fun c => add_lock c (lock_of from_transfer from_expiration)) ;
  if (block + minimum_reveal_margin <? from_expiration)%Z then
    Some (channels1, mkTarget from_route from_transfer T_secret_requested,
          [SendSecretRequest (initiator from_transfer)
             (transfer_hashlock from_transfer) (transfer_amount from_transfer)])
  else
    Some (channels1, mkTarget from_route from_transfer T_failed, []).

Definition target_step (block : Z) (channels : gmap N Channel)
    (st : TargetState) (sc : StateChange)
  : option (gmap N Channel * TargetState * list Event) :=
  let transfer := t_from_transfer st in
  match sc, t_phase st with
  | ReceiveSecretReveal s sender, T_secret_requested =>
      if sha3 s =? transfer_hashlock transfer then
        Some (channels,
              mkTarget (t_from_route st) (with_secret transfer s) T_secret_requested,
              [SendRevealSecret (node_address (t_from_route st)) s])
      else None
  | ReceiveBalanceProof proof s sender, T_secret_requested =>
      if (sender =? node_address (t_from_route st))
         && (sha3 s =? transfer_hashlock transfer)
      then
        channels' ← unlock_partner channels (route_channel (t_from_route st))
           proof sender (transfer_hashlock transfer) ;
        Some (channels',
              mkTarget (t_from_route st) (with_secret transfer s) T_completed,
              [EventTransferReceivedSuccess (identifier transfer)])
      else None
  | Block n, T_secret_requested =>
      match secret transfer, transfer_expiration transfer with
      | None, Some expiration =>
          if (expiration <? n)%Z then
            Some (channels, mkTarget (t_from_route st) transfer T_failed,
                  [EventTransferReceivedFailed (identifier transfer) "lock expired"])
          else None
      | _, _ => None
      end
  | _, _ => None
  end.

(** *** State manager (section 4.6) *)

Inductive Role :=
| Initiator (st : InitiatorState)
| Mediator (st : MediatorState)
| Target (st : TargetState).

Definition role_hashlock (r : Role) : N :=
  match r with
  | Initiator st => transfer_hashlock (i_transfer st)
  | Mediator st => transfer_hashlock (m_from_transfer st)
  | Target st => transfer_hashlock (t_from_transfer st)
  end.

Definition terminal (r : Role) : bool :=
  match r with
  | Initiator st =>
      match i_phase st with I_completed | I_failed => true | _ => false end
  | Mediator st =>
      match m_phase st with M_completed | M_failed => true | _ => false end
  | Target st =>
      match t_phase st with T_completed | T_failed => true | _ => false end
  end.

(** A role that reached a terminal state leaves the live set. *)
Definition keep_live (r : Role) : list Role := if terminal r then [] else [r].

Definition as_role {S} (wrap : S -> Role)
    (r : option (gmap N Channel * S * list Event))
  : option (gmap N Channel * Role * list Event) :=
  '(channels, st, events) ← r ; Some (channels, wrap st, events).

Definition role_step (block : Z) (channels : gmap N Channel) (r : Role)
    (sc : StateChange) : option (gmap N Channel * Role * list Event) :=
  match r with
  | Initiator st => as_role Initiator (initiator_step block channels st sc)
  | Mediator st => as_role Mediator (mediator_step block channels st sc)
  | Target st => as_role Target (target_step block channels st sc)
  end.

(** The aggregate state: the block height, the channels by identifier, and
    the live role state machines in the order of their creation. *)
Record AggregateState := mkState {
  block_number : Z;
  channels : gmap N Channel;
  roles : list Role;
}.

Definition empty_state : AggregateState := mkState 0 ∅ [].

(** A [Receive*] state change goes to the live role of its hashlock, the
    oldest one first; [None] when no role takes it. *)
Fixpoint deliver (block : Z) (channels : gmap N Channel) (h : N)
    (sc : StateChange) (roles : list Role)
  : option (gmap N Channel * list Role * list Event) :=
  match roles with
  | [] => None
  | r :: rest =>
      if role_hashlock r =? h then
        '(channels', r', events) ← role_step block channels r sc ;
        Some (channels', keep_live r' ++ rest, events)
      else
        '(channels', rest', events) ← deliver block channels h sc rest ;
        Some (channels', r :: rest', events)
  end.

(** [Block n] is applied to every live role, in order. *)
Fixpoint advance (n : Z) (channels : gmap N Channel) (roles : list Role)
  : gmap N Channel * list Role * list Event :=
  match roles with
  | [] => (channels, [], [])
  | r :: rest =>
      match role_step n channels r (Block n) with
      | Some (channels1, r', events) =>
          let '(channels2, rest', events') := advance n channels1 rest in
          (channels2, keep_live r' ++ rest', events ++ events')
      | None =>
          let '(channels2, rest', events') := advance n channels rest in
          (channels2, r :: rest', events')
      end
  end.

Definition to_role (s : AggregateState) (h : N) (sc : StateChange)
  : AggregateState * list Event :=
  match deliver (block_number s) (channels s) h sc (roles s) with
  | Some (channels', roles', events) =>
      (mkState (block_number s) channels' roles', events)
  | None => (s, [])
  end.

Definition start_role (s : AggregateState) (h : N)
    (init : option (gmap N Channel * Role * list Event))
  : AggregateState * list Event :=
  if existsb (fun r => role_hashlock r =? h) (roles s) then (s, [])
  else match init with
       | Some (channels', r, events) =>
           (mkState (block_number s) channels' (roles s ++ keep_live r), events)
       | None => (s, [])
       end.

Definition update_channel (s : AggregateState) (id : N)
    (f : Channel -> option Channel) : AggregateState :=
  match channels s !! id with
  | Some c =>
      match f c with
      | Some c' => mkState (block_number s) (<[id := c']> (channels s)) (roles s)
      | None => s
      end
  | None => s
  end.

(** Modelled from the spec: [dispatch(aggregate_state, state_change)] of
    section 4.6, which is not among the source files.  A state change that
    is malformed, addressed to nothing, or refused by the ledger returns the
    state as it was, with no event. *)
Definition dispatch (s : AggregateState) (sc : StateChange)
  : AggregateState * list Event :=
  match sc with
  | Block n =>
      if (n <? block_number s)%Z then (s, [])
      else
        let '(channels', roles', events) := advance n (channels s) (roles s) in
        (mkState n channels' roles', events)
  | ActionInitInitiator transfer routes =>
      start_role s (transfer_hashlock transfer)
        (as_role Initiator
           (initiator_init (block_number s) (channels s) transfer routes))
  | ActionInitMediator from_route from_transfer routes =>
      start_role s (transfer_hashlock from_transfer)
        (as_role Mediator
           (mediator_init (channels s) from_route from_transfer routes))
  | ActionInitTarget from_route from_transfer =>
      start_role s (transfer_hashlock from_transfer)
        (as_role Target
           (target_init (block_number s) (channels s) from_route from_transfer))
  | ReceiveSecretRequest h _ _ => to_role s h sc
  | ReceiveSecretReveal secret _ => to_role s (sha3 secret) sc
  | ReceiveBalanceProof _ secret _ => to_role s (sha3 secret) sc
  | ReceiveTransferRefund h _ => to_role s h sc
  | ChannelOpened id self partner settle =>
      match channels s !! id with
      | Some _ => (s, [])
      | None =>
          if (default_reveal_timeout <? settle)%Z then
            (mkState (block_number s)
               (<[id := new_channel id default_token self partner settle
                          default_reveal_timeout]> (channels s))
               (roles s), [])
          else (s, [])
      end
  | ChannelNewDeposit id participant total =>
      (update_channel s id
         (fun c => if is_settled c then None
                   else Some (apply_deposit c participant total)), [])
  | ChannelClosed id _ _ =>
      (update_channel s id
         (fun c => match state c with
                   | opened => Some (set_state c closed)
                   | _ => None
                   end), [])
  | ChannelSettled id _ =>
      (update_channel s id
         (fun c => match state c with
                   | closed => Some (set_state c settled)
                   | _ => None
                   end), [])
  | SecretRevealedOnChain id secret =>
      match channels s !! id with
      | Some c =>
          to_role s (sha3 secret)
            (ReceiveSecretReveal secret (participant_partner c))
      | None => (s, [])
      end
  end.

(** The hashlocks of the live roles, by which messages are addressed. *)
Definition live_hashlocks (roles : list Role) : list N := map role_hashlock roles.

(** Replay of a write-ahead log: the state changes are applied in order;
    the events of all of them are collected. *)
Inductive replay : AggregateState -> list StateChange ->
                   AggregateState -> list Event -> Prop :=
| replay_done s :
    replay s [] s []
| replay_next s sc log s1 events s2 events' :
    dispatch s sc = (s1, events) ->
    replay s1 log s2 events' ->
    replay s (sc :: log) s2 (events ++ events').

(** The same replay as a function. *)
Fixpoint replay_log (s : AggregateState) (log : list StateChange)
  : AggregateState * list Event :=
  match log with
  | [] => (s, [])
  | sc :: rest =>
      let '(s1, events) := dispatch s sc in
      let '(s2, events') := replay_log s1 rest in
      (s2, events ++ events')
  end.

(** A run of one mediator, the latest step first: what each step left (the
    channels, the mediator's state) and what it emitted.  The run starts
    with [ActionInitMediator]; every later step is a state change the
    mediator reacts to, on the channels as they are at that moment (between
    its steps the rest of the node may have changed them). *)
Record MediatorStep := mkMediatorStep {
  step_channels : gmap N Channel;
  step_state : MediatorState;
  step_events : list Event;
}.

Inductive mediator_run : list MediatorStep -> Prop :=
| run_started channels from_route from_transfer routes channels' st events :
    mediator_init channels from_route from_transfer routes
    = Some (channels', st, events) ->
    mediator_run [mkMediatorStep channels' st events]
| run_step last history block channels sc channels' st' events :
    mediator_run (last :: history) ->
    mediator_step block channels (step_state last) sc
    = Some (channels', st', events) ->
    mediator_run (mkMediatorStep channels' st' events :: last :: history).

(** The outgoing lock of a mediator is removed in [channels]: the outgoing
    channel holds no pending lock of the transfer's hashlock. *)
Definition outgoing_lock_removed (channels : gmap N Channel) (st : MediatorState)
  : Prop :=
  exists route c,
    m_route st = Some route /\
    channels !! route_channel route = Some c /\
    pending_locks c !! transfer_hashlock (m_from_transfer st) = None.

End Roles.

(** An adapter for the examples: the identity as hash, every signature
    valid. *)
Definition example_adapter : CryptoAdapter :=
  Build_CryptoAdapter (fun secret => secret) (fun _ => 0) (fun _ _ => true)
                      (fun _ _ => 0).

(** A channel between 1 (self) and 2 with deposits 10 and 5, a pending lock
    of 4, and 3 transferred by a proof of nonce 1. *)
Definition example_opened : Channel := new_channel 7 100 1 2 50%Z 10%Z.
Definition example_funded : Channel :=
  apply_deposit (apply_deposit example_opened 1 10) 2 5.
Definition example_lock : Lock := mkLock 99 4 40%Z.
Definition example_locked : Channel :=
  fst (add_lock example_funded example_lock).
Definition example_proof : BalanceProof := mkBalanceProof 7 1 3 0 0.
Definition example_paid : Channel :=
  fst (apply_balance_proof (crypto := example_adapter) example_locked example_proof 1).

Definition example_params : ProtocolParams := Build_ProtocolParams 2 5 3 10 100.

(** The mediator of scenario B: node 20 between 10 (channel 1) and 30
    (channel 2), a transfer of 5 locked by hashlock 77 until block 40. *)
Definition example_from_route : Route := mkRoute 10 1 10 50%Z 10%Z None.
Definition example_out_route : Route := mkRoute 30 2 10 50%Z 10%Z None.
Definition example_transfer : Transfer :=
  mkTransfer 1 100 5 10 30 77 None (Some 40%Z).
Definition example_routes : RoutesState :=
  mkRoutes [example_from_route; example_out_route] [] [] [].

Definition example_log : list StateChange :=
  [ChannelOpened 1 20 10 50%Z; ChannelOpened 2 20 30 50%Z;
   ChannelNewDeposit 1 20 10; ChannelNewDeposit 1 10 10;
   ChannelNewDeposit 2 20 10; ChannelNewDeposit 2 30 10;
   ActionInitMediator example_from_route example_transfer example_routes;
   ReceiveSecretReveal 77 30;
   ReceiveBalanceProof (mkBalanceProof 1 1 5 0 0) 77 10].

(** The state a log leaves and the events it emits. *)
Definition run_log (log : list StateChange) : AggregateState * list Event :=
  replay_log (crypto := example_adapter) (params := example_params)
             empty_state log.

(** Channel 2 once the example log is replayed: 5 transferred, no lock. *)
Definition example_replayed_channel : Channel :=
  default example_opened (channels (fst (run_log example_log)) !! 2).

Definition example_channels : gmap N Channel :=
  channels (fst (run_log (firstn 6 example_log))).

(** The run of the example mediator up to its reveal upstream: what
    [ActionInitMediator] leaves, then what the secret from node 30 leaves. *)
Definition as_step (r : option (gmap N Channel * MediatorState * list Event))
  : MediatorStep :=
  match r with
  | Some (channels, st, events) => mkMediatorStep channels st events
  | None =>
      mkMediatorStep ∅
        (mkMediator example_from_route example_transfer example_routes None 0%Z
                    M_init) []
  end.

Definition example_started : MediatorStep :=
  as_step (mediator_init (params := example_params) example_channels
             example_from_route example_transfer example_routes).

Definition example_revealed : MediatorStep :=
  as_step (mediator_step (crypto := example_adapter) (params := example_params)
             36%Z (step_channels example_started) (step_state example_started)
             (ReceiveSecretReveal 77 30)).



End Core.

(** A successful [add_lock] or [remove_lock] leads from a reachable channel
    to a reachable one. *)
Ltac ledger_op_reaches :=
  intros ? ? [] ? ?;
  first [ eapply Core.reach_add_lock; eassumption
        | eapply Core.reach_remove_lock; eassumption ].

(** ** raiden/ui/console.py: [lastlog] and [lasterr] of [Console._run] *)

Module ConsoleLog.

(** Python 3 strings with code points below 256. *)

Definition newline : ascii := ascii_of_nat 10.
Definition colon : ascii := ascii_of_nat 58.

(** The characters [str.strip()] removes: tab to carriage return, the four
    separators 28 to 31, the space, NEL and the no-break space. *)
Definition is_space (c : ascii) : bool :=
  let n := nat_of_ascii c in
  ((9 <=? n) && (n <=? 13) || (28 <=? n) && (n <=? 32)
   || (n =? 133) || (n =? 160))%nat.

Fixpoint lstrip (s : string) : string :=
  match s with
  | EmptyString => EmptyString
  | String c rest => if is_space c then lstrip rest else s
  end.

Fixpoint rstrip (s : string) : string :=
  match s with
  | EmptyString => EmptyString
  | String c rest =>
      match rstrip rest with
      | EmptyString => if is_space c then EmptyString else String c EmptyString
      | kept => String c kept
      end
  end.

(** [s.strip()] *)
Definition strip (s : string) : string := rstrip (lstrip s).

(** [s.split(sep)] for a separator of one character: never an empty list. *)
Fixpoint split (sep : ascii) (s : string) : list string :=
  match s with
  | EmptyString => [EmptyString]
  | String c rest =>
      if Ascii.eqb c sep then EmptyString :: split sep rest
      else match split sep rest with
           | piece :: pieces => String c piece :: pieces
           | [] => [String c EmptyString]
           end
  end.

(** [sep.join(pieces)] *)
Fixpoint join (sep : ascii) (pieces : list string) : string :=
  match pieces with
  | [] => EmptyString
  | [piece] => piece
  | piece :: rest => (piece ++ String sep (join sep rest))%string
  end.

(** [lines[-n:]] *)
Definition last_lines {A} (lines : list A) (n : Z) : list A :=
  let len := Z.of_nat (length lines) in
  let start := if 0 <? n then Z.max (len - n) 0 else Z.min (- n) len in
  drop (Z.to_nat start) lines.

(** [if prefix:] and [if level:] pass on a string that is not empty. *)
Definition given (o : option string) : option string :=
  match o with
  | Some EmptyString => None
  | _ => o
  end.

(** [[line for line in lines if line.split(':')[1].startswith(prefix)]];
    [None] is the [IndexError] of a line without a colon. *)
Fixpoint with_prefix (prefix : string) (lines : list string)
  : option (list string) :=
  match lines with
  | [] => Some []
  | line :: rest =>
      match nth_error (split colon line) 1 with
      | None => None
      | Some name =>
          match with_prefix prefix rest with
          | None => None
          | Some kept =>
              Some (if String.prefix prefix name then line :: kept else kept)
          end
      end
  end.

(** [[line for line in lines if line.split(':')[0] == level]] *)
Definition with_level (level : string) (lines : list string) : list string :=
  List.filter (fun line => String.eqb (hd EmptyString (split colon line)) level)
              lines.

(** The lines [lastlog] selects before tailing. *)
Definition selected (logged : string) (prefix level : option string)
  : option (list string) :=
  let lines := split newline (strip logged) in
  match match given prefix with
        | Some p => with_prefix p lines
        | None => Some lines
        end with
  | None => None
  | Some lines =>
      Some match given level with
           | Some l => with_level l lines
           | None => lines
           end
  end.

(** What a call leaves on stdout, a line per [print], or its exception. *)
Inductive printed :=
| Printed (lines : list string)
| IndexError.

(** [lastlog(n=10, prefix=None, level=None)] on a log stream holding
    [logged]. *)
Definition lastlog (logged : string) (n : Z) (prefix level : option string)
  : printed :=
  match selected logged prefix level with
  | None => IndexError
  | Some lines => Printed (last_lines lines n)
  end.

(** [lasterr(n=1)] on a captured stderr holding [err]. *)
Definition lasterr (err : string) (n : Z) : list string :=
  last_lines (split newline (strip err)) n.

(** The last character of a string. *)
Fixpoint last_char (s : string) : option ascii :=
  match s with
  | EmptyString => None
  | String c EmptyString => Some c
  | String _ rest => last_char rest
  end.

(** All characters of the string are white space. *)
Fixpoint blank (s : string) : bool :=
  match s with
  | EmptyString => true
  | String c rest => is_space c && blank rest
  end.

(** The character occurs in the string. *)
Fixpoint occurs (c : ascii) (s : string) : bool :=
  match s with
  | EmptyString => false
  | String c' rest => Ascii.eqb c' c || occurs c rest
  end.

(** Three lines as the log handler formats them. *)
Definition example_logged : string :=
  ("INFO:p2p started" ++ String newline
   ("DEBUG:chain block 5" ++ String newline
    ("INFO:p2p.peer connected" ++ String newline EmptyString)))%string.

End ConsoleLog.

(** ** raiden/ui/console.py: [SigINTHandler] *)

Module SigINT.

(** The two bound methods given to [gevent.signal]. *)
Inductive callback := handle_int | handle_force.

(** The process as the handler changes it: the watchers [gevent.signal]
    has made for SIGINT, in the order of their creation, each with its
    callback and whether it is still active (not cancelled); the event
    given to the handler; whether SIGTERM was sent to the process.  A
    watcher is named by its place in the list. *)
Record process := mkProcess {
  watchers : list (callback * bool);
  event_set : bool;
  sigterm_sent : bool;
}.

(** The fields [installed] and [installed_force]; [self.event] is the
    event of the process. *)
Record handler := mkHandler {
  installed : option nat;
  installed_force : option nat;
}.

(** [gevent.signal(signal.SIGINT, cb)]: a new active watcher. *)
Definition gevent_signal (p : process) (cb : callback) : nat * process :=
  (length (watchers p),
   mkProcess (watchers p ++ [(cb, true)]) (event_set p) (sigterm_sent p)).

(** [watcher.cancel()] *)
Definition cancel (p : process) (w : nat) : process :=
  mkProcess (alter (fun entry => (fst entry, false)) w (watchers p))
            (event_set p) (sigterm_sent p).

(** The callbacks that a SIGINT runs now. *)
Definition active (p : process) : list callback :=
  map fst (List.filter snd (watchers p)).

Definition install_handler (s : process * handler) : process * handler :=
  let '(p, h) := s in
  let '(p1, h1) :=
    match installed_force h with
    | Some forced => (cancel p forced, mkHandler (installed h) None)
    | None => (p, h)
    end in
  let '(w, p2) := gevent_signal p1 handle_int in
  (p2, mkHandler (Some w) (installed_force h1)).

Definition install_handler_force (s : process * handler) : process * handler :=
  let '(p, h) := s in
  let '(p1, h1) :=
    match installed h with
    | Some regular => (cancel p regular, mkHandler None (installed_force h))
    | None => (p, h)
    end in
  let '(w, p2) := gevent_signal p1 handle_force in
  (p2, mkHandler (installed h1) (Some w)).

(** [SigINTHandler(event)] *)
Definition init (p : process) : process * handler :=
  install_handler (p, mkHandler None None).

(** [handle_int], up to the greenlet it spawns for
    [_confirm_enter_console]. *)
Definition on_handle_int (s : process * handler) : process * handler :=
  install_handler_force s.

(** [handle_force]: [os.kill(os.getpid(), signal.SIGTERM)] *)
Definition on_handle_force (p : process) : process :=
  mkProcess (watchers p) (event_set p) true.

Definition set_event (p : process) : process :=
  mkProcess (watchers p) true (sigterm_sent p).

(** What [select.select([sys.stdin], [], [], .5)] does: it returns with
    stdin ready or not, or raises [select.error] with [EINTR] or another
    number. *)
Inductive select_result := Ready | NotReady | Interrupted | Failed.

Inductive loop_exit := Answered | TimedOut | GotEINTR | GotError.

(** How [_confirm_enter_console] ends: the console is entered, the run is
    resumed, the process kills itself, [select.error] is raised again, or
    [None.cancel()] raises. *)
Inductive confirm_status :=
| Entered | Resumed | Killed | SelectError | CancelOnNone.

Section Confirm.

(** The readings of [time.time()] with the [-] and [<] Python gives them,
    and [ENTER_CONSOLE_TIMEOUT]. *)
Variable number : Type.
Variable sub : number -> number -> number.
Variable lt : number -> number -> bool.
Variable ENTER_CONSOLE_TIMEOUT : number.

(** The [n]-th reading of the clock and the outcome of the [k]-th
    [select]. *)
Record input := mkInput {
  time : nat -> number;
  select : nat -> select_result;
}.

(** The [while] loop at its pass number [k]: the clock is read for the
    test and once more for the prompt, then [select] is called.  [None]:
    the loop is still running when [fuel] passes are spent. *)
Fixpoint prompt_loop (i : input) (start : number) (k fuel : nat)
  : option loop_exit :=
  match fuel with
  | O => None
  | S fuel' =>
      if lt (sub (time i (1 + 2 * k)) start) ENTER_CONSOLE_TIMEOUT then
        match select i k with
        | Interrupted => Some GotEINTR
        | Failed => Some GotError
        | Ready => Some Answered
        | NotReady => prompt_loop i start (S k) fuel'
        end
      else Some TimedOut
  end.

(** [_confirm_enter_console]; what it writes to stdout is left out. *)
Definition confirm_enter_console (i : input) (s : process * handler)
    (fuel : nat) : option (confirm_status * (process * handler)) :=
  match prompt_loop i (time i 0) 0 fuel with
  | None => None
  | Some GotEINTR => Some (Killed, (on_handle_force (fst s), snd s))
  | Some GotError => Some (SelectError, s)
  | Some Answered =>
      match installed_force (snd s) with
      | Some forced => Some (Entered, (set_event (cancel (fst s) forced), snd s))
      | None => Some (CancelOnNone, s)
      end
  | Some TimedOut => Some (Resumed, install_handler s)
  end.

End Confirm.

(** The handler is armed: its regular watcher is the latest one made and
    is active, no forced one is recorded, and the other active callbacks
    are [base]. *)
Definition armed (base : list callback) (s : process * handler) : Prop :=
  exists ws,
    watchers (fst s) = ws ++ [(handle_int, true)] /\
    map fst (List.filter snd ws) = base /\
    installed (snd s) = Some (length ws) /\
    installed_force (snd s) = None.

(** The handler waits for an answer: a second ^C kills. *)
Definition forced (base : list callback) (s : process * handler) : Prop :=
  exists ws,
    watchers (fst s) = ws ++ [(handle_force, true)] /\
    map fst (List.filter snd ws) = base /\
    installed (snd s) = None /\
    installed_force (snd s) = Some (length ws).

(** A process with no watcher, and a user who answers at the second
    [select]; the clock is in seconds. *)
Definition quiet : process := mkProcess [] false false.
Definition answers_second : input Z :=
  mkInput Z (fun n => Z.of_nat n / 4)
          (fun k => match k with 1%nat => Ready | _ => NotReady end).
Definition never_answers : input Z :=
  mkInput Z (fun n => Z.of_nat n / 2) (fun _ => NotReady).

End SigINT.

(* --------------------------------------------------------------------- *)
(** ** raiden/tests/integration/long_running/flaky/test_token_networks.py *)
(* --------------------------------------------------------------------- *)

Module TokenNetworks.
Import Py.

(** What the test reads of a connection manager: its open channels and
    its [initial_channel_target]. *)
Record connection_manager := mkManager {
  open_channels : list Z;
  initial_channel_target : Z;
}.

(** The truth value of a list. *)
Definition truth {A} (l : list A) : bool :=
  match l with
  | [] => false
  | _ :: _ => true
  end.

Definition open_channels_count (connection_managers_ : list connection_manager)
  : list (list Z) :=
  map open_channels connection_managers_.

Definition not_saturated (connection_managers_ : list connection_manager)
  : list Z :=
  map (fun _ => 1)
      (List.filter
         (fun connection_manager_ =>
            Z.of_nat (length (open_channels connection_manager_))
            <? initial_channel_target connection_manager_)
         connection_managers_).

(** The [while] loop.  [network blocks] is what the connection managers
    show once [wait_until_block] has returned [blocks] times.  [None]: the
    loop is still running when [fuel] passes are spent. *)
Fixpoint saturation_loop (network : nat -> list connection_manager)
    (blocks : nat) (max_wait : Z) (fuel : nat) : option (nat * Z) :=
  match fuel with
  | O => None
  | S fuel' =>
      if truth (not_saturated (network blocks)) && (max_wait >? 0) then
        saturation_loop network (S blocks) (max_wait - 1) fuel'
      else Some (blocks, max_wait)
  end.

(** The part of [test_participant_selection] from [assert
    all(open_channels_count(connection_managers))] to [assert not
    not_saturated(connection_managers)]; it gives the number of blocks
    waited for. *)
Definition wait_for_saturation (network : nat -> list connection_manager)
    (fuel : nat) : option (outcome nat) :=
  match py_assert (forallb truth (open_channels_count (network O))) EmptyString with
  | Raises e => Some (Raises e)
  | Returns _ =>
      match saturation_loop network 0 12 fuel with
      | None => None
      | Some (blocks, _) =>
          Some (py_assert (negb (truth (not_saturated (network blocks)))) EmptyString ;;
                Returns blocks)
      end
  end.

(** Every manager has at least as many open channels as it aims at. *)
Definition saturated (connection_managers_ : list connection_manager) : Prop :=
  Forall (fun connection_manager_ =>
            initial_channel_target connection_manager_
            <= Z.of_nat (length (open_channels connection_manager_)))
         connection_managers_.

(** Two managers that aim at two channels; the second one opens its
    second channel with the third block. *)
Definition slow_network (blocks : nat) : list connection_manager :=
  [mkManager [10; 11] 2;
   mkManager (if (blocks <? 3)%nat then [20] else [20; 21]) 2].

End TokenNetworks.

(* ===================================================================== *)
(** * Part II: theorems                                                   *)
(* ===================================================================== *)

Section E2E_path.
Import Py E2E.

Lemma py_assert_returns cond msg :
  py_assert cond msg = Returns tt <-> cond = true.
Proof. unfold py_assert. destruct cond; split; congruence. Qed.

Lemma bind_returns {A B} (m : outcome A) (k : A -> outcome B) b :
  m ≫= k = Returns b <-> exists a, m = Returns a /\ k a = Returns b.
Proof.
  destruct m as [a|e]; unfold mbind, outcome_bind; simpl; split.
  - eauto.
  - intros (a' & Ha & Hk). congruence.
  - discriminate.
  - intros (a' & Ha & _). discriminate.
Qed.

Lemma for_each_returns {A} (body : A -> outcome unit) (xs : list A) :
  for_each body xs = Returns tt <-> Forall (fun x => body x = Returns tt) xs.
Proof.
  induction xs as [|x xs IH]; simpl.
  - split; [constructor | reflexivity].
  - rewrite bind_returns, Forall_cons. split.
    + intros ([] & Hx & Hrest). split; [assumption | now apply IH].
    + intros [Hx Hrest]. exists tt. split; [assumption | now apply IH].
Qed.

Lemma almost_equal_returns first second :
  mediated_transfer_almost_equal first second = Returns tt
  <-> same_transfer first second.
Proof.
  unfold mediated_transfer_almost_equal, same_transfer, py_assert.
  unfold mbind, outcome_bind.
  repeat (case_bool_decide; simpl); split;
    solve [ tauto | discriminate | intros _; tauto ].
Qed.

Lemma path_step_returns a b :
  path_step (a, b) = Returns tt
  <-> exists first second,
        a = IsMediatedTransfer first /\ b = IsMediatedTransfer second /\
        same_transfer first second /\
        recipient first = sender second /\
        expiration (lock first) > expiration (lock second).
Proof.
  unfold path_step; simpl. split.
  - intros H.
    apply bind_returns in H as (first & Ha & H).
    apply bind_returns in H as (second & Hb & H).
    apply bind_returns in H as ([] & Heq & H).
    apply bind_returns in H as ([] & Hrs & Hexp).
    destruct a as [ta|]; [|discriminate]. destruct b as [tb|]; [|discriminate].
    simpl in Ha, Hb. injection Ha as <-. injection Hb as <-.
    exists ta, tb. apply almost_equal_returns in Heq.
    apply py_assert_returns, bool_decide_eq_true in Hrs.
    apply py_assert_returns in Hexp. apply Z.gtb_gt in Hexp.
    auto.
  - intros (first & second & -> & -> & Heq & Hrs & Hexp).
    apply bind_returns. exists first. split; [reflexivity|].
    apply bind_returns. exists second. split; [reflexivity|].
    apply bind_returns. exists tt. split; [now apply almost_equal_returns|].
    apply bind_returns. exists tt. split.
    + now apply py_assert_returns, bool_decide_eq_true.
    + apply py_assert_returns. now apply Z.gtb_gt.
Qed.

(** [zip(transfers[:-1], transfers[1:])] enumerates the consecutive hops. *)
Lemma zip_adjacent {A} (l : list A) (i : nat) (a b : A) :
  zip (removelast l) (tail l) !! i = Some (a, b)
  <-> l !! i = Some a /\ l !! S i = Some b.
Proof.
  revert i. induction l as [|x [|y l] IH]; intros i.
  - simpl. split; [discriminate | intros [? _]; discriminate].
  - simpl. split; [discriminate | intros [_ ?]; discriminate].
  - change (removelast (x :: y :: l)) with (x :: removelast (y :: l)).
    change (tail (x :: y :: l)) with (y :: l).
    destruct i as [|i].
    + destruct l as [|z l]; simpl; split.
      * intros [= <- <-]. tauto.
      * intros [[= <-] [= <-]]. reflexivity.
      * intros [= <- <-]. tauto.
      * intros [[= <-] [= <-]]. reflexivity.
    + specialize (IH i). simpl in IH.
      change ((x :: y :: l) !! S i) with ((y :: l) !! i).
      change ((x :: y :: l) !! S (S i)) with ((y :: l) !! S i).
      rewrite <- IH. destruct l; reflexivity.
Qed.

Lemma assert_path_returns transfers :
  assert_path_mediated_transfer transfers = Returns tt
  <-> forallb isinstance_MediatedTransfer transfers = true /\
      forall a b, consecutive transfers a b -> path_step (a, b) = Returns tt.
Proof.
  unfold assert_path_mediated_transfer.
  rewrite bind_returns. split.
  - intros ([] & Hall & Hloop). apply py_assert_returns in Hall.
    split; [assumption|].
    intros a b (i & Ha & Hb).
    rewrite for_each_returns, Forall_lookup in Hloop.
    apply (Hloop i (a, b)). now apply zip_adjacent.
  - intros [Hall Hloop]. exists tt.
    split; [now apply py_assert_returns|].
    apply for_each_returns, Forall_lookup.
    intros i [a b] Hi. apply Hloop. exists i. now apply zip_adjacent.
Qed.

(** C5. Along every path that [assert_path_mediated_transfer] accepts,
    each pair of consecutive messages is a pair of [MediatedTransfer]s
    whose lock expirations strictly decrease:
    [first.lock.expiration > second.lock.expiration]. *)
Theorem path_expiration_strictly_decreasing transfers a b :
  assert_path_mediated_transfer transfers = Returns tt ->
  consecutive transfers a b ->
  exists first second,
    a = IsMediatedTransfer first /\ b = IsMediatedTransfer second /\
    expiration (lock first) > expiration (lock second).
Proof.
  intros Hok Hadj.
  apply assert_path_returns in Hok as [_ Hloop].
  apply Hloop, path_step_returns in Hadj
    as (first & second & -> & -> & _ & _ & Hexp).
  eauto.
Qed.

(** C6. Along every path that [assert_path_mediated_transfer] accepts,
    consecutive [MediatedTransfer]s agree on identifier, token, lock amount,
    lock hashlock, target and initiator, and the recipient of each is the
    sender of the next. *)
Theorem path_preserves_transfer_identity transfers a b :
  assert_path_mediated_transfer transfers = Returns tt ->
  consecutive transfers a b ->
  exists first second,
    a = IsMediatedTransfer first /\ b = IsMediatedTransfer second /\
    identifier first = identifier second /\
    token first = token second /\
    amount (lock first) = amount (lock second) /\
    hashlock (lock first) = hashlock (lock second) /\
    target first = target second /\
    initiator first = initiator second /\
    recipient first = sender second.
Proof.
  intros Hok Hadj.
  apply assert_path_returns in Hok as [_ Hloop].
  apply Hloop, path_step_returns in Hadj
    as (first & second & -> & -> & Hsame & Hrs & _).
  destruct Hsame as (? & ? & ? & ? & ? & ?).
  exists first, second. repeat split; assumption.
Qed.

Lemma path_0_3_2_consecutive :
  consecutive path_0_3_2 (IsMediatedTransfer hop_0_3) (IsMediatedTransfer hop_3_2).
Proof. exists 0%nat. split; reflexivity. Qed.

Lemma path_expiration_strictly_decreasing_witness :
  exists first second,
    IsMediatedTransfer hop_0_3 = IsMediatedTransfer first /\
    IsMediatedTransfer hop_3_2 = IsMediatedTransfer second /\
    expiration (lock first) > expiration (lock second).
Proof.
  apply (path_expiration_strictly_decreasing path_0_3_2).
  - vm_compute. reflexivity.
  - exact path_0_3_2_consecutive.
Defined.

Lemma path_preserves_transfer_identity_witness :
  exists first second,
    IsMediatedTransfer hop_0_3 = IsMediatedTransfer first /\
    IsMediatedTransfer hop_3_2 = IsMediatedTransfer second /\
    identifier first = identifier second /\
    token first = token second /\
    amount (lock first) = amount (lock second) /\
    hashlock (lock first) = hashlock (lock second) /\
    target first = target second /\
    initiator first = initiator second /\
    recipient first = sender second.
Proof.
  apply (path_preserves_transfer_identity path_0_3_2).
  - vm_compute. reflexivity.
  - exact path_0_3_2_consecutive.
Defined.

End E2E_path.

Section E2E_entries.
Import Py E2E.

Variable getattr : pyval -> string -> outcome pyval.
Variable py_ne : pyval -> pyval -> bool.

#[local] Abbreviation check_nested_attrs := (check_nested_attrs getattr py_ne).
#[local] Abbreviation check_value := (check_value getattr py_ne).
#[local] Abbreviation must_contain_entry := (must_contain_entry getattr py_ne).

(** On the built-in [dict] the call of [iteritems] fails before anything
    of [item] or of [data] is read. *)
Lemma check_nested_attrs_dict item data :
  check_nested_attrs item dict_ data = Raises (AttributeError "iteritems").
Proof. reflexivity. Qed.

Lemma check_nested_attrs_nil item name :
  check_nested_attrs item (dict_with_iteritems name) [] = Returns true.
Proof. reflexivity. Qed.

Lemma check_nested_attrs_cons item cname name value rest :
  check_nested_attrs item (dict_with_iteritems cname) ((name, value) :: rest) =
  (item_value ← getattr item name ;
   ok ← check_value item_value value ;
   if (ok : bool) then check_nested_attrs item (dict_with_iteritems cname) rest
   else Returns false).
Proof. reflexivity. Qed.

Lemma must_contain_entry_cons item rest type_ cls data :
  must_contain_entry (item :: rest) type_ cls data =
  if isinstance item type_ then
    ok ← check_nested_attrs item cls data ;
    if (ok : bool) then Returns true else must_contain_entry rest type_ cls data
  else must_contain_entry rest type_ cls data.
Proof. reflexivity. Qed.

Lemma must_contain_entry_dict item_list type_ data :
  must_contain_entry item_list type_ dict_ data
  = if existsb (fun item => isinstance item type_) item_list
    then Raises (AttributeError "iteritems") else Returns false.
Proof.
  induction item_list as [|item rest IH]; [reflexivity|].
  rewrite must_contain_entry_cons, check_nested_attrs_dict.
  cbn [existsb]. destruct (isinstance item type_); [reflexivity|exact IH].
Qed.

Lemma must_contain_entry_no_data item_list type_ name :
  must_contain_entry item_list type_ (dict_with_iteritems name) []
  = Returns (existsb (fun item => isinstance item type_) item_list).
Proof.
  induction item_list as [|item rest IH]; [reflexivity|].
  rewrite must_contain_entry_cons, check_nested_attrs_nil.
  cbn [existsb]. destruct (isinstance item type_); [reflexivity|exact IH].
Qed.

(** C7.  With a [dict] for [data], which is what [test_fullnetwork] passes
    in every call, [must_contain_entry] never returns [True]: it raises
    the [AttributeError] of [iteritems] at the first entry of the wanted
    type, whatever [data] holds and whether the entry matches or not, and
    returns [False] when the list has no such entry.  On the calls of
    [test_fullnetwork] with [{}] and with a sender and a secret, on a list
    that holds the entry looked for, it raises where a subset match gives
    [True].  Only the call of [iteritems] stands in the way: with a class
    of dictionaries that has the method and no items the result is the
    existence of an instance of the type. *)
Theorem must_contain_entry_raises_on_dict :
  (forall item_list type_ data,
      must_contain_entry item_list type_ dict_ data
      = if existsb (fun item => isinstance item type_) item_list
        then Raises (AttributeError "iteritems") else Returns false) /\
  (forall item_list type_ data,
      must_contain_entry item_list type_ dict_ data <> Returns true) /\
  must_contain_entry [EventTransferSentSuccess_sent] "EventTransferSentSuccess"
                     dict_ []
  = Raises (AttributeError "iteritems") /\
  must_contain_entry [ReceiveSecretReveal_app3] "ReceiveSecretReveal"
                     dict_ expect_sender_and_secret
  = Raises (AttributeError "iteritems") /\
  (forall name item_list type_,
      must_contain_entry item_list type_ (dict_with_iteritems name) []
      = Returns (existsb (fun item => isinstance item type_) item_list)).
Proof.
  split; [exact must_contain_entry_dict|].
  split.
  { intros item_list type_ data. rewrite must_contain_entry_dict.
    destruct (existsb _ item_list); discriminate. }
  split; [reflexivity|]. split; [reflexivity|].
  intros name item_list type_. apply must_contain_entry_no_data.
Qed.

End E2E_entries.

Section Objects_data.
Import Py Objects.

Lemma FlatList_is_list c : issubclass c FlatList = true -> issubclass c list_ = true.
Proof. destruct c; vm_compute; congruence. Qed.

Lemma subclasses_of_FlatList :
  Forall (fun c => issubclass c FlatList = true)
         [FlatList; ChannelList; TokensList; AddressList; PartnersPerTokenList;
          EventsList].
Proof. repeat constructor. Qed.

(** C9. On every instance [xs] of [FlatList] or of one of its subclasses,
    [xs.data] returns a list object that did not exist before (so it is not
    [xs]), holds the elements of [xs] (it equals [list(xs)] and [xs]), and
    the store is otherwise unchanged: [xs] and every other object are as
    they were. *)
Theorem FlatList_data_fresh_copy (h : store) (xs : loc) (o : pyobject) :
  h !! xs = Some o ->
  issubclass (ob_type o) FlatList = true ->
  exists r h',
    data h xs = Returns (r, h') /\
    py_list h xs = Returns (r, h') /\
    h !! r = None /\ r <> xs /\
    h' !! r = Some (mkObject list_ (ob_item o)) /\
    list_eq h' r xs = true /\
    h' !! xs = Some o /\
    (forall l, l <> r -> h' !! l = h !! l).
Proof.
  intros Hxs Hsub.
  pose proof (is_fresh (dom h)) as Hfresh.
  set (r := fresh (dom h)) in *.
  assert (h !! r = None) as Hr by now apply not_elem_of_dom.
  assert (r <> xs) as Hne by (intros ->; congruence).
  exists r, (<[r := mkObject list_ (ob_item o)]> h).
  assert (py_list h xs = Returns (r, <[r := mkObject list_ (ob_item o)]> h)) as Hlist.
  { unfold py_list. rewrite Hxs, (FlatList_is_list _ Hsub). reflexivity. }
  split; [unfold data; now rewrite Hxs, Hsub|].
  split; [exact Hlist|]. split; [exact Hr|]. split; [exact Hne|].
  split; [apply lookup_insert_eq|].
  split.
  { unfold list_eq. rewrite lookup_insert_eq, lookup_insert_ne, Hxs by exact Hne.
    now apply bool_decide_eq_true. }
  split; [now rewrite lookup_insert_ne|].
  intros l Hl. now rewrite lookup_insert_ne.
Qed.

Lemma FlatList_data_fresh_copy_witness :
  exists r h',
    data two_channels 3%positive = Returns (r, h') /\
    py_list two_channels 3%positive = Returns (r, h') /\
    two_channels !! r = None /\ r <> 3%positive /\
    h' !! r = Some (mkObject list_ [1%positive; 2%positive]) /\
    list_eq h' r 3%positive = true /\
    h' !! 3%positive = Some (mkObject ChannelList [1%positive; 2%positive]) /\
    (forall l, l <> r -> h' !! l = two_channels !! l).
Proof.
  apply (FlatList_data_fresh_copy two_channels 3%positive
           (mkObject ChannelList [1%positive; 2%positive])).
  - reflexivity.
  - reflexivity.
Defined.

End Objects_data.

Section Console_wait.
Import Console.

Variable number : Type.
Variable add : number -> number -> number.
Variable gt : number -> number -> bool.
Variable truth : number -> bool.

#[local] Abbreviation wait_loop := (wait_loop number add gt truth).
#[local] Abbreviation wait_for_contract := (wait_for_contract number add gt truth).

(** The loop ends with [True] only on a non-empty [result], which is the
    one it was entered with or the answer to a later query. *)
Lemma wait_loop_true (w : world number) timeout start_time fuel :
  forall result current_time queries,
    wait_loop w timeout start_time result current_time queries fuel = Some true ->
    result <> [] \/ exists n, getCode number w n <> [].
Proof.
  induction fuel as [|fuel IH]; intros result current_time queries; simpl.
  - discriminate.
  - destruct result as [|b result]; simpl.
    + destruct (timeout_and number add gt truth timeout start_time current_time);
        [discriminate|].
      intros H. apply IH in H as [H|H]; [|now right].
      right. now exists queries.
    + intros _. left. discriminate.
Qed.

(** C10, as the code has it.  With a timeout that is true as a condition
    (neither [None] nor zero), a contract whose code is still empty at the
    first query and [start_time + timeout > current_time], the call returns
    [False] at the first test of the loop, that is while the timeout has not
    elapsed; and whatever the timeout, [True] is only returned after some
    [getCode] query returned non-empty code. *)
Theorem wait_for_contract_gives_up_early (w : world number) (t : number) (fuel : nat) :
  truth t = true ->
  getCode number w 0 = [] ->
  gt (add (time number w 0) t) (time number w 1) = true ->
  wait_for_contract w (Some t) (S fuel) = Some false /\
  (forall timeout fuel',
      wait_for_contract w timeout fuel' = Some true ->
      exists n, getCode number w n <> []).
Proof.
  intros Htruth Hcode Hgt. split.
  - unfold wait_for_contract, Console.wait_for_contract. simpl.
    rewrite Hcode. simpl. rewrite Htruth, Hgt. reflexivity.
  - intros timeout fuel' H. apply wait_loop_true in H as [H|H]; [|exact H].
    now exists 0%nat.
Qed.

End Console_wait.

Section Console_examples.
Import Console.

Lemma wait_for_contract_gives_up_early_witness :
  wait_for_contract Z Z.add Z.gtb Z_truth not_mined_yet (Some 10) 1 = Some false /\
  (forall timeout fuel',
      wait_for_contract Z Z.add Z.gtb Z_truth not_mined_yet timeout fuel' = Some true ->
      exists n, getCode Z not_mined_yet n <> []).
Proof.
  apply (wait_for_contract_gives_up_early Z Z.add Z.gtb Z_truth not_mined_yet 10 0).
  - reflexivity.
  - reflexivity.
  - reflexivity.
Defined.

(** C10 as stated fails at a timeout of zero: it is not [None], the code is
    empty and [start_time + timeout > current_time] (the clock was set back),
    yet the loop goes on and the call returns [True]. *)
Lemma wait_for_contract_zero_timeout :
  getCode Z clock_set_back 0 = [] /\
  (time Z clock_set_back 0 + 0 >? time Z clock_set_back 1) = true /\
  wait_for_contract Z Z.add Z.gtb Z_truth clock_set_back (Some 0) 1 = None /\
  wait_for_contract Z Z.add Z.gtb Z_truth clock_set_back (Some 0) 2 = Some true.
Proof. repeat split. Qed.

End Console_examples.

Section Core_ledger.
Import Core.
Context {crypto : CryptoAdapter}.

Local Open Scope N_scope.

Lemma locked_amount_comm (j1 j2 : N) (z1 z2 : Lock) (y : N) :
  amount z1 + (amount z2 + y) = amount z2 + (amount z1 + y).
Proof. lia. Qed.

Lemma locked_amount_empty c :
  pending_locks c = ∅ -> locked_amount c = 0.
Proof. unfold locked_amount. intros ->. apply map_fold_empty. Qed.

Lemma locked_amount_insert c lock :
  pending_locks c !! hashlock lock = None ->
  locked_amount (set_pending_locks c (<[hashlock lock := lock]> (pending_locks c)))
  = amount lock + locked_amount c.
Proof.
  intros Hfree. unfold locked_amount. simpl.
  rewrite map_fold_insert_L; [reflexivity| |exact Hfree].
  intros. apply locked_amount_comm; assumption.
Qed.

Lemma locked_amount_delete c h lock :
  pending_locks c !! h = Some lock ->
  locked_amount c
  = amount lock + locked_amount (set_pending_locks c (delete h (pending_locks c))).
Proof.
  intros Hlock. unfold locked_amount. simpl.
  rewrite (map_fold_delete_L _ _ h lock); [reflexivity| |exact Hlock].
  intros. apply locked_amount_comm; assumption.
Qed.

Lemma apply_deposit_grows c participant total :
  total_deposit c <= total_deposit (apply_deposit c participant total) /\
  own_balance_proof (apply_deposit c participant total) = own_balance_proof c /\
  pending_locks (apply_deposit c participant total) = pending_locks c.
Proof.
  unfold apply_deposit, total_deposit.
  destruct (side_of c participant) as [[|]|]; [| |repeat split; lia].
  - destruct (N.leb_spec (own_deposit c) total); simpl; repeat split; lia.
  - destruct (N.leb_spec (partner_deposit c) total); simpl; repeat split; lia.
Qed.

Lemma add_lock_preserves c lock c' :
  no_overspend c -> add_lock c lock = (c', Ok tt) -> no_overspend c'.
Proof.
  unfold add_lock, no_overspend. intros Hinv.
  destruct (pending_locks c !! hashlock lock) eqn:Hfree; [discriminate|].
  destruct (N.ltb_spec (total_deposit c)
              (transferred_amount (own_balance_proof c) + locked_amount c
               + amount lock)); [discriminate|].
  intros [= <-]. rewrite locked_amount_insert by exact Hfree.
  unfold total_deposit in *. simpl. lia.
Qed.

Lemma remove_lock_preserves c h c' :
  no_overspend c -> remove_lock c h = (c', Ok tt) -> no_overspend c'.
Proof.
  unfold remove_lock, no_overspend. intros Hinv.
  destruct (pending_locks c !! h) as [lock|] eqn:Hlock; [|discriminate].
  intros [= <-]. rewrite (locked_amount_delete c h lock Hlock) in Hinv.
  unfold total_deposit in *. simpl in *. lia.
Qed.

Lemma apply_balance_proof_preserves c proof sender c' delta :
  no_overspend c -> apply_balance_proof c proof sender = (c', Ok delta) ->
  no_overspend c'.
Proof.
  unfold apply_balance_proof, no_overspend. intros Hinv.
  destruct (side_of c sender) as [s|]; [|discriminate].
  destruct (verify_signature sender proof); simpl; [|discriminate].
  destruct (nonce (recorded_proof c s) <? nonce proof); simpl; [|discriminate].
  destruct (N.ltb_spec (total_deposit c)
              (transferred_amount proof + locked_amount c)); [discriminate|].
  intros [= <- _]. destruct s; unfold total_deposit, locked_amount in *; simpl; lia.
Qed.

(** The ledger operations keep the deposit invariant. *)
Lemma reachable_keeps_invariant (c : Channel) :
  reachable c -> no_overspend c.
Proof.
  induction 1 as [ id token self partner settle reveal
                 | c participant total _ IH
                 | c lock c' _ IH Hadd
                 | c h c' _ IH Hremove
                 | c proof sender c' delta _ IH Happly
                 | c s _ IH ].
  - unfold no_overspend, total_deposit. rewrite locked_amount_empty by reflexivity.
    simpl. lia.
  - destruct (apply_deposit_grows c participant total) as (Hgrow & Hproof & Hlocks).
    unfold no_overspend, locked_amount in *. rewrite Hproof, Hlocks. lia.
  - exact (add_lock_preserves c lock c' IH Hadd).
  - exact (remove_lock_preserves c h c' IH Hremove).
  - exact (apply_balance_proof_preserves c proof sender c' delta IH Happly).
  - exact IH.
Qed.

Lemma apply_balance_proof_cases c proof sender :
  (exists s delta,
      side_of c sender = Some s /\
      verify_signature sender proof = true /\
      nonce (recorded_proof c s) < nonce proof /\
      apply_balance_proof c proof sender = (record_proof c s proof, Ok delta)) \/
  (exists e, apply_balance_proof c proof sender = (c, Err e) /\
             (forall s, side_of c sender = Some s ->
                        verify_signature sender proof = true ->
                        nonce proof <= nonce (recorded_proof c s) ->
                        e = StaleNonce)).
Proof.
  unfold apply_balance_proof.
  destruct (side_of c sender) as [s|]; [|right; eexists; split; [reflexivity|]; discriminate].
  destruct (verify_signature sender proof); simpl;
    [|right; eexists; split; [reflexivity|]; discriminate].
  destruct (N.ltb_spec (nonce (recorded_proof c s)) (nonce proof)) as [Hlt|Hge]; simpl;
    [|right; eexists; split; [reflexivity|]; reflexivity].
  destruct (total_deposit c <? transferred_amount proof + locked_amount c).
  - right. eexists. split; [reflexivity|]. intros s' [= <-] _ Hle. lia.
  - left. exists s. eexists. repeat split; assumption || reflexivity.
Qed.

Lemma recorded_record_proof c s proof :
  recorded_proof (record_proof c s proof) s = proof.
Proof. destruct s; reflexivity. Qed.

Lemma side_of_record_proof c s proof sender :
  side_of (record_proof c s proof) sender = side_of c sender.
Proof. destruct s; reflexivity. Qed.

(** Applied in order from one sender, the accepted proofs have strictly
    increasing nonces, all above the nonce recorded at the start. *)
Lemma accepted_nonces_increasing sender proofs :
  forall c s, side_of c sender = Some s ->
    StronglySorted N.lt (nonce (recorded_proof c s) :: accepted_nonces c sender proofs).
Proof.
  induction proofs as [|proof rest IH]; intros c s Hs; simpl.
  - repeat constructor.
  - destruct (apply_balance_proof_cases c proof sender)
      as [(s' & delta & Hs' & _ & Hlt & ->)|(e & -> & _)].
    + assert (s' = s) as -> by congruence.
      specialize (IH (record_proof c s proof) s).
      rewrite side_of_record_proof, recorded_record_proof in IH.
      specialize (IH Hs). inversion IH as [|? ? Hsorted Hall]; subst.
      constructor; [exact IH|].
      constructor; [exact Hlt|].
      eapply Forall_impl; [exact Hall|]. simpl. intros n Hn. lia.
    + exact (IH c s Hs).
Qed.

(** C4. [apply_balance_proof] accepts a proof only if its nonce is strictly
    greater than the nonce last accepted from that sender on the channel,
    which then becomes the proof's; a proof whose nonce is not greater is
    rejected, with [StaleNonce] when its signature is valid; every rejection
    returns the channel unchanged; and over any sequence of proofs from one
    sender the accepted nonces strictly increase. *)
Theorem apply_balance_proof_nonce_monotonic (c : Channel) (proof : BalanceProof)
    (sender : N) :
  (forall c' delta,
      apply_balance_proof c proof sender = (c', Ok delta) ->
      exists s, side_of c sender = Some s /\
                nonce (recorded_proof c s) < nonce proof /\
                recorded_proof c' s = proof) /\
  (forall s, side_of c sender = Some s ->
             nonce proof <= nonce (recorded_proof c s) ->
             (exists e, apply_balance_proof c proof sender = (c, Err e)) /\
             (verify_signature sender proof = true ->
              apply_balance_proof c proof sender = (c, Err StaleNonce))) /\
  (forall c' e, apply_balance_proof c proof sender = (c', Err e) -> c' = c) /\
  (forall s proofs, side_of c sender = Some s ->
      StronglySorted N.lt
        (nonce (recorded_proof c s) :: accepted_nonces c sender proofs)).
Proof.
  destruct (apply_balance_proof_cases c proof sender)
    as [(s & delta & Hs & Hsig & Hlt & Heq)|(e & Heq & Hstale)]; rewrite Heq.
  - split; [|split; [|split]].
    + intros c' delta' [= <- _]. exists s.
      rewrite recorded_record_proof. auto.
    + intros s' Hs' Hle. assert (s' = s) as -> by congruence. lia.
    + discriminate.
    + intros s' proofs Hs'. now apply accepted_nonces_increasing.
  - split; [|split; [|split]].
    + discriminate.
    + intros s Hs Hle. split; [now exists e|].
      intros Hsig. now rewrite (Hstale s Hs Hsig Hle).
    + now intros c' e' [= <- _].
    + intros s proofs Hs. now apply accepted_nonces_increasing.
Qed.

End Core_ledger.

Section Core_ledger_examples.
Import Core.
Local Open Scope N_scope.

Lemma example_paid_reachable : reachable (crypto := example_adapter) example_paid.
Proof.
  apply (reach_balance_proof example_locked example_proof 1 example_paid 3%Z);
    [|reflexivity].
  apply (reach_add_lock example_funded example_lock); [|reflexivity].
  apply reach_deposit, reach_deposit, reach_opened.
Defined.

Lemma apply_balance_proof_nonce_monotonic_witness :
  (exists s, side_of example_locked 1 = Some s /\
             nonce (recorded_proof example_locked s) < nonce example_proof /\
             recorded_proof example_paid s = example_proof) /\
  apply_balance_proof (crypto := example_adapter) example_paid example_proof 1
  = (example_paid, Err StaleNonce) /\
  StronglySorted N.lt
    (0 :: accepted_nonces (crypto := example_adapter) example_locked 1
            [example_proof; example_proof]).
Proof.
  destruct (apply_balance_proof_nonce_monotonic (crypto := example_adapter)
              example_locked example_proof 1) as (Haccepted & _ & _ & Hsorted).
  destruct (apply_balance_proof_nonce_monotonic (crypto := example_adapter)
              example_paid example_proof 1) as (_ & Hstale & _ & _).
  split; [apply (Haccepted example_paid 3%Z); reflexivity|].
  split.
  - apply (Hstale Own); [reflexivity| |reflexivity]. vm_compute. discriminate.
  - apply (Hsorted Own). reflexivity.
Defined.

End Core_ledger_examples.

Section Core_routes.
Import Core.
Context {crypto : CryptoAdapter} {params : ProtocolParams}.

Local Open Scope N_scope.





(** When the ledger accepts the lock, the initiator commits to the route
    [next_route] returns. *)
Lemma initiator_init_commits block channels transfer routes s route channels' :
  secret transfer = Some s ->
  sha3 s = transfer_hashlock transfer ->
  next_route routes ∅ (transfer_amount transfer) = Some route ->
  on_channel channels (route_channel route)
    (fun c => add_lock c
       (lock_of transfer (block + route_settle_timeout route - margin)%Z))
  = Some (channels', tt) ->
  exists st events,
    initiator_init block channels transfer routes = Some (channels', st, events) /\
    i_route st = Some route.
Proof.
  intros Hsecret Hhash Hnext Hadd.
  unfold initiator_init, initiator_try_route.
  rewrite Hsecret, Hhash, N.eqb_refl, Hnext, Hadd. simpl. eauto.
Qed.


End Core_routes.

Section Core_routes_examples.
Import Core.
Local Open Scope N_scope.


End Core_routes_examples.

Section Core_mediator.
Import Core.
Context {crypto : CryptoAdapter} {params : ProtocolParams}.

Local Open Scope N_scope.

Lemma on_channel_some {A} channels id (op : Channel -> Channel * result A)
    channels' a :
  on_channel channels id op = Some (channels', a) ->
  exists c c', channels !! id = Some c /\ op c = (c', Ok a) /\
               channels' = <[id := c']> channels.
Proof.
  unfold on_channel. destruct (channels !! id) as [c|]; simpl; [|discriminate].
  destruct (is_settled c); [discriminate|].
  destruct (op c) as [c' [a'|e]] eqn:Hop; [|discriminate].
  intros [= <- <-]. eauto.
Qed.

Lemma remove_lock_removes c h c' :
  remove_lock c h = (c', Ok tt) -> pending_locks c' !! h = None.
Proof.
  unfold remove_lock. destruct (pending_locks c !! h); [|discriminate].
  intros [= <-]. simpl. apply lookup_delete_eq.
Qed.

(** Once [unlock_own] succeeds, the lock is no longer pending in the
    channel. *)
Lemma unlock_own_removes channels id h amount channels' proof :
  unlock_own channels id h amount = Some (channels', proof) ->
  exists c', channels' !! id = Some c' /\ pending_locks c' !! h = None.
Proof.
  unfold unlock_own. destruct (channels !! id) as [c|]; simpl; [|discriminate].
  destruct (on_channel channels id _) as [[channels1 d]|] eqn:Happly;
    simpl; [|discriminate].
  destruct (on_channel channels1 id _) as [[channels2 []]|] eqn:Hremove;
    simpl; [|discriminate].
  intros [= <- _].
  apply on_channel_some in Hremove as (c1 & c2 & _ & Hop & ->).
  exists c2. split; [apply lookup_insert_eq|].
  exact (remove_lock_removes c1 h c2 Hop).
Qed.

Lemma mediator_try_route_no_reveal channels from_route from_transfer routes
    from_expiration channels' st events recipient s :
  mediator_try_route channels from_route from_transfer routes from_expiration
  = Some (channels', st, events) ->
  ~ In (SendRevealSecret recipient s) events.
Proof.
  unfold mediator_try_route.
  destruct (next_route routes _ _) as [route|].
  - destruct (on_channel channels (route_channel route) _) as [[channels1 []]|];
      simpl; [|discriminate].
    intros [= _ _ <-] [Hin|[]]. discriminate Hin.
  - intros [= _ _ <-] [Hin|[]]. discriminate Hin.
Qed.

Lemma mediator_init_no_reveal channels from_route from_transfer routes
    channels' st events recipient s :
  mediator_init channels from_route from_transfer routes
  = Some (channels', st, events) ->
  ~ In (SendRevealSecret recipient s) events.
Proof.
  unfold mediator_init.
  destruct (transfer_expiration from_transfer) as [e|]; simpl; [|discriminate].
  destruct (on_channel channels (route_channel from_route) _) as [[channels1 []]|];
    simpl; [|discriminate].
  apply mediator_try_route_no_reveal.
Qed.

(** A step that emits [SendRevealSecret] is the step that took the secret
    from downstream: the reveal goes upstream, the secret opens the
    hashlock, and the outgoing lock has been removed by the same step. *)
Lemma mediator_step_reveal block channels st sc channels' st' events recipient s :
  mediator_step block channels st sc = Some (channels', st', events) ->
  In (SendRevealSecret recipient s) events ->
  recipient = node_address (m_from_route st') /\
  sha3 s = transfer_hashlock (m_from_transfer st') /\
  outgoing_lock_removed channels' st'.
Proof.
  unfold mediator_step.
  destruct sc as [ n | | | | | s' sender | proof s' sender | | | | | | ];
    try discriminate;
    destruct (m_phase st); try discriminate;
    destruct (m_route st) as [route|] eqn:Hroute; try discriminate.
  - (* Block: the outgoing attempt is abandoned *)
    destruct (m_expiration st <? n)%Z; [|discriminate].
    destruct (transfer_expiration (m_from_transfer st)) as [e|]; [|discriminate].
    destruct (e <? n)%Z.
    + intros [= _ _ <-] [Hin|[]]. discriminate Hin.
    + intros Htry Hin.
      now apply (mediator_try_route_no_reveal _ _ _ _ _ _ _ _ recipient s) in Htry.
  - (* ReceiveSecretReveal from downstream *)
    destruct ((sender =? node_address route)
              && (sha3 s' =? transfer_hashlock (m_from_transfer st))) eqn:Hcheck;
      [|discriminate].
    apply andb_true_iff in Hcheck as [_ Hhash]. apply N.eqb_eq in Hhash.
    destruct (unlock_own channels (route_channel route) _ _)
      as [[channels1 proof]|] eqn:Hunlock; simpl; [|discriminate].
    intros [= <- <- <-] [Hin|[Hin|[]]]; [discriminate Hin|].
    injection Hin as <- <-. simpl.
    split; [reflexivity|]. split; [exact Hhash|].
    apply unlock_own_removes in Hunlock as (c' & Hc' & Hgone).
    exists route, c'. simpl. auto.
  - (* ReceiveBalanceProof from upstream *)
    destruct ((sender =? node_address (m_from_route st)) && _); [|discriminate].
    destruct (unlock_partner channels _ proof sender _); simpl; [|discriminate].
    intros [= _ _ <-] [].
Qed.

(** C2. In every run of the mediator, a step that emits [SendRevealSecret]
    sends it to the upstream ([from_route]) peer with a secret that opens
    the transfer's hashlock, and that step leaves the outgoing channel
    without the lock of that hashlock: the outgoing unlock is applied before
    the reveal goes upstream. *)
Theorem mediator_reveals_after_unlock (run : list MediatorStep) (step : MediatorStep)
    (recipient s : N) :
  mediator_run run ->
  In step run ->
  In (SendRevealSecret recipient s) (step_events step) ->
  recipient = node_address (m_from_route (step_state step)) /\
  sha3 s = transfer_hashlock (m_from_transfer (step_state step)) /\
  outgoing_lock_removed (step_channels step) (step_state step).
Proof.
  intros Hrun. revert step.
  induction Hrun as [ channels from_route from_transfer routes channels' st events Hinit
                    | last history block channels sc channels' st' events _ IH Hstep ];
    intros step Hin Hreveal.
  - destruct Hin as [<-|[]]. simpl in Hreveal.
    now apply (mediator_init_no_reveal _ _ _ _ _ _ _ recipient s) in Hinit.
  - destruct Hin as [<-|Hin]; [|now apply IH].
    simpl in *. exact (mediator_step_reveal _ _ _ _ _ _ _ _ _ Hstep Hreveal).
Qed.

End Core_mediator.

Section Core_mediator_examples.
Import Core.
Local Open Scope N_scope.

Lemma example_mediator_run :
  mediator_run (crypto := example_adapter) (params := example_params)
    [example_revealed; example_started].
Proof.
  apply (run_step (crypto := example_adapter) (params := example_params)
           example_started [] 36%Z (step_channels example_started)
           (ReceiveSecretReveal 77 30)
           (step_channels example_revealed) (step_state example_revealed)
           (step_events example_revealed)).
  - apply (run_started (crypto := example_adapter) (params := example_params)
             example_channels example_from_route example_transfer example_routes
             (step_channels example_started) (step_state example_started)
             (step_events example_started)).
    vm_compute. reflexivity.
  - vm_compute. reflexivity.
Defined.

Lemma mediator_reveals_after_unlock_witness :
  In (SendRevealSecret 10 77) (step_events example_revealed) /\
  10 = node_address (m_from_route (step_state example_revealed)) /\
  sha3 (CryptoAdapter := example_adapter) 77
  = transfer_hashlock (m_from_transfer (step_state example_revealed)) /\
  outgoing_lock_removed (step_channels example_revealed)
                        (step_state example_revealed).
Proof.
  split; [right; left; reflexivity|].
  apply (mediator_reveals_after_unlock
           (crypto := example_adapter) (params := example_params)
           [example_revealed; example_started] example_revealed 10 77).
  - exact example_mediator_run.
  - left. reflexivity.
  - right. left. reflexivity.
Defined.

End Core_mediator_examples.

Section Core_dispatch.
Import Core.
Context {crypto : CryptoAdapter} {params : ProtocolParams}.

(** The replay relation is the graph of [replay_log]: a log always replays,
    and to one state and one list of events. *)
Lemma replay_log_spec log :
  forall s s' events, replay s log s' events <-> replay_log s log = (s', events).
Proof.
  induction log as [|sc log IH]; intros s s' events; simpl.
  - split.
    + inversion 1. reflexivity.
    + intros [= <- <-]. constructor.
  - destruct (dispatch s sc) as [s1 events1] eqn:Hstep.
    destruct (replay_log s1 log) as [s2 events2] eqn:Hrest.
    apply IH in Hrest. split.
    + inversion 1 as [|? ? ? s1' ev1 s2' ev2 Hd Hr]; subst.
      assert (s1' = s1 /\ ev1 = events1) as [-> ->] by (split; congruence).
      apply IH in Hr. apply IH in Hrest. rewrite Hrest in Hr.
      now injection Hr as -> ->.
    + intros [= <- <-]. econstructor; eassumption.
Qed.

Lemma replay_total s log : exists s' events, replay s log s' events.
Proof.
  destruct (replay_log s log) as [s' events] eqn:Hrun.
  exists s', events. now apply replay_log_spec.
Qed.

Lemma replay_functional s log s1 events1 s2 events2 :
  replay s log s1 events1 -> replay s log s2 events2 ->
  s1 = s2 /\ events1 = events2.
Proof.
  intros H1%replay_log_spec H2%replay_log_spec. rewrite H1 in H2.
  now injection H2 as -> ->.
Qed.

(** Recovery picks up where the log stopped: replaying a log and then its
    continuation is replaying the whole. *)
Lemma replay_app s log1 s1 events1 log2 s2 events2 :
  replay s log1 s1 events1 -> replay s1 log2 s2 events2 ->
  replay s (log1 ++ log2) s2 (events1 ++ events2).
Proof.
  induction 1 as [s|s sc log s' ev s1 ev1 Hd _ IH]; intros Hrest; simpl.
  - exact Hrest.
  - rewrite <- app_assoc. econstructor; [exact Hd|]. now apply IH.
Qed.

(** A state change that nothing takes changes nothing: for instance a
    message for a hashlock no live role has. *)
Lemma dispatch_unaddressed s h amount sender :
  existsb (fun r => (role_hashlock r =? h)%N) (roles s) = false ->
  dispatch s (ReceiveSecretRequest h amount sender) = (s, []).
Proof.
  intros Hnone. simpl. unfold to_role.
  assert (forall block channels rs,
             existsb (fun r => (role_hashlock r =? h)%N) rs = false ->
             deliver block channels h (ReceiveSecretRequest h amount sender) rs
             = None) as Hdeliver.
  { intros block channels rs. induction rs as [|r rs IH]; simpl; [reflexivity|].
    intros [Hr Hrs]%orb_false_iff. rewrite Hr, (IH Hrs). reflexivity. }
  now rewrite Hdeliver.
Qed.

(** *** Addressing by hashlock is unambiguous *)

Lemma initiator_try_route_hashlock block channels transfer routes channels' st events :
  initiator_try_route block channels transfer routes = Some (channels', st, events) ->
  transfer_hashlock (i_transfer st) = transfer_hashlock transfer.
Proof.
  unfold initiator_try_route.
  destruct (next_route routes ∅ _) as [route|]; [|now intros [= _ <- _]].
  destruct (on_channel channels _ _) as [[channels1 []]|]; simpl; [|discriminate].
  now intros [= _ <- _].
Qed.

Lemma mediator_try_route_hashlock channels from_route from_transfer routes e
    channels' st events :
  mediator_try_route channels from_route from_transfer routes e
  = Some (channels', st, events) ->
  transfer_hashlock (m_from_transfer st) = transfer_hashlock from_transfer.
Proof.
  unfold mediator_try_route.
  destruct (next_route routes _ _) as [route|]; [|now intros [= _ <- _]].
  destruct (on_channel channels _ _) as [[channels1 []]|]; simpl; [|discriminate].
  now intros [= _ <- _].
Qed.

Lemma initiator_step_hashlock block channels st sc channels' st' events :
  initiator_step block channels st sc = Some (channels', st', events) ->
  transfer_hashlock (i_transfer st') = transfer_hashlock (i_transfer st).
Proof.
  unfold initiator_step.
  destruct sc as [ n | | | | h amount sender | s' sender | | h sender | | | | | ];
    try discriminate;
    destruct (i_phase st); try discriminate;
    destruct (i_route st) as [route|]; try discriminate.
  - destruct (secret (i_transfer st));
      (destruct (transfer_expiration (i_transfer st)) as [e|]; [|discriminate]);
      (destruct (e <? n)%Z; [|discriminate]);
      apply initiator_try_route_hashlock.
  - destruct (secret (i_transfer st)); [|discriminate].
    destruct (_ && _); [|discriminate]. now intros [= _ <- _].
  - destruct (secret (i_transfer st)) as [s|]; [|discriminate].
    destruct (s' =? s)%N; [|discriminate].
    destruct (unlock_own channels _ _ _) as [[channels1 proof]|];
      simpl; [|discriminate].
    now intros [= _ <- _].
  - destruct (secret (i_transfer st));
      (destruct (sender =? node_address route)%N; [|discriminate]);
      apply initiator_try_route_hashlock.
Qed.

Lemma mediator_step_hashlock block channels st sc channels' st' events :
  mediator_step block channels st sc = Some (channels', st', events) ->
  transfer_hashlock (m_from_transfer st') = transfer_hashlock (m_from_transfer st).
Proof.
  unfold mediator_step.
  destruct sc as [ n | | | | | s' sender | proof s' sender | | | | | | ];
    try discriminate;
    destruct (m_phase st); try discriminate;
    destruct (m_route st) as [route|]; try discriminate.
  - destruct (m_expiration st <? n)%Z; [|discriminate].
    destruct (transfer_expiration (m_from_transfer st)) as [e|]; [|discriminate].
    destruct (e <? n)%Z; [now intros [= _ <- _]|].
    apply mediator_try_route_hashlock.
  - destruct (_ && _); [|discriminate].
    destruct (unlock_own channels _ _ _) as [[channels1 proof]|];
      simpl; [|discriminate].
    now intros [= _ <- _].
  - destruct (_ && _); [|discriminate].
    destruct (unlock_partner channels _ proof sender _); simpl; [|discriminate].
    now intros [= _ <- _].
Qed.

Lemma target_step_hashlock block channels st sc channels' st' events :
  target_step block channels st sc = Some (channels', st', events) ->
  transfer_hashlock (t_from_transfer st') = transfer_hashlock (t_from_transfer st).
Proof.
  unfold target_step.
  destruct sc as [ n | | | | | s' sender | proof s' sender | | | | | | ];
    try discriminate;
    destruct (t_phase st); try discriminate.
  - destruct (secret (t_from_transfer st)); [discriminate|].
    destruct (transfer_expiration (t_from_transfer st)) as [e|]; [|discriminate].
    destruct (e <? n)%Z; [|discriminate]. now intros [= _ <- _].
  - destruct (sha3 s' =? _)%N; [|discriminate]. now intros [= _ <- _].
  - destruct (_ && _); [|discriminate].
    destruct (unlock_partner channels _ proof sender _); simpl; [|discriminate].
    now intros [= _ <- _].
Qed.

Lemma as_role_inv {S} (wrap : S -> Role) r channels' role events :
  as_role wrap r = Some (channels', role, events) ->
  exists st, r = Some (channels', st, events) /\ role = wrap st.
Proof.
  unfold as_role. destruct r as [[[channels1 st] events1]|]; simpl; [|discriminate].
  intros [= <- <- <-]. eauto.
Qed.

(** A role keeps its hashlock for life. *)
Lemma role_step_hashlock block channels r sc channels' r' events :
  role_step block channels r sc = Some (channels', r', events) ->
  role_hashlock r' = role_hashlock r.
Proof.
  destruct r as [st|st|st]; simpl; intros (st' & Hstep & ->)%as_role_inv; simpl.
  - eapply initiator_step_hashlock; eassumption.
  - eapply mediator_step_hashlock; eassumption.
  - eapply target_step_hashlock; eassumption.
Qed.

Lemma keep_live_hashlocks r rest rest' :
  live_hashlocks rest' `sublist_of` live_hashlocks rest ->
  live_hashlocks (keep_live r ++ rest') `sublist_of` role_hashlock r :: live_hashlocks rest.
Proof.
  intros Hrest. unfold keep_live. destruct (terminal r); simpl.
  - now apply sublist_cons.
  - now apply sublist_skip.
Qed.

Lemma deliver_hashlocks block h sc rs :
  forall channels channels' rs' events,
    deliver block channels h sc rs = Some (channels', rs', events) ->
    live_hashlocks rs' `sublist_of` live_hashlocks rs.
Proof.
  induction rs as [|r rs IH]; intros channels channels' rs' events; simpl;
    [discriminate|].
  destruct (role_hashlock r =? h)%N.
  - destruct (role_step block channels r sc) as [[[channels1 r1] events1]|] eqn:Hstep;
      simpl; [|discriminate].
    intros [= _ <- _]. rewrite <- (role_step_hashlock _ _ _ _ _ _ _ Hstep).
    now apply keep_live_hashlocks.
  - destruct (deliver block channels h sc rs) as [[[channels1 rs1] events1]|] eqn:Hrest;
      simpl; [|discriminate].
    intros [= _ <- _]. simpl. apply sublist_skip. eapply IH. eassumption.
Qed.

Lemma advance_hashlocks n rs :
  forall channels,
    live_hashlocks (snd (fst (advance n channels rs))) `sublist_of` live_hashlocks rs.
Proof.
  induction rs as [|r rs IH]; intros channels; simpl; [constructor|].
  destruct (role_step n channels r (Block n)) as [[[channels1 r1] events1]|] eqn:Hstep.
  - specialize (IH channels1).
    destruct (advance n channels1 rs) as [[channels2 rs2] events2]. simpl in *.
    rewrite <- (role_step_hashlock _ _ _ _ _ _ _ Hstep).
    now apply keep_live_hashlocks.
  - specialize (IH channels).
    destruct (advance n channels rs) as [[channels2 rs2] events2]. simpl in *.
    now apply sublist_skip.
Qed.

Lemma to_role_distinct s h sc :
  NoDup (live_hashlocks (roles s)) ->
  NoDup (live_hashlocks (roles (fst (to_role s h sc)))).
Proof.
  intros Hs. unfold to_role.
  destruct (deliver _ _ h sc (roles s)) as [[[channels1 rs1] events1]|] eqn:Hd;
    simpl; [|exact Hs].
  eapply sublist_NoDup; [exact Hs|]. eapply deliver_hashlocks. eassumption.
Qed.

Lemma start_role_distinct s h init :
  NoDup (live_hashlocks (roles s)) ->
  (forall channels' r events, init = Some (channels', r, events) ->
                              role_hashlock r = h) ->
  NoDup (live_hashlocks (roles (fst (start_role s h init)))).
Proof.
  intros Hs Hinit. unfold start_role.
  destruct (existsb _ (roles s)) eqn:Hlive; [exact Hs|].
  destruct init as [[[channels1 r] events]|]; simpl; [|exact Hs].
  unfold keep_live. destruct (terminal r); [now rewrite app_nil_r|].
  unfold live_hashlocks. rewrite map_app. simpl.
  apply NoDup_app. split; [exact Hs|]. split; [|apply NoDup_singleton].
  intros x Hx Hin. apply list_elem_of_singleton in Hin as ->.
  rewrite (Hinit _ _ _ eq_refl) in Hx.
  apply list_elem_of_In, in_map_iff in Hx as (r0 & Hr0 & Hin0).
  assert (existsb (fun r => (role_hashlock r =? h)%N) (roles s) = true) as Hex.
  { apply existsb_exists. exists r0. split; [exact Hin0|now apply N.eqb_eq]. }
  congruence.
Qed.

(** In every state a log replays to, the live roles have distinct hashlocks:
    a message addressed by hashlock has one addressee at most. *)
Lemma dispatch_distinct s sc :
  NoDup (live_hashlocks (roles s)) ->
  NoDup (live_hashlocks (roles (fst (dispatch s sc)))).
Proof.
  intros Hs. destruct sc as [ n | transfer routes | from_route from_transfer routes
                            | from_route from_transfer | h amount sender
                            | s' sender | proof s' sender | h sender
                            | id self partner settle | id participant total
                            | id closing n | id n | id s' ]; simpl;
    try (now apply to_role_distinct).
  - destruct (n <? block_number s)%Z; [exact Hs|].
    pose proof (advance_hashlocks n (roles s) (channels s)) as Hadv.
    destruct (advance n (channels s) (roles s)) as [[channels1 rs1] events1].
    simpl in *. eapply sublist_NoDup; eassumption.
  - apply start_role_distinct; [exact Hs|].
    intros channels' r events (st & Hinit & ->)%as_role_inv. simpl.
    unfold initiator_init in Hinit.
    destruct (secret transfer) as [s'|]; [|discriminate].
    destruct (sha3 s' =? _)%N; [|discriminate].
    eapply initiator_try_route_hashlock; eassumption.
  - apply start_role_distinct; [exact Hs|].
    intros channels' r events (st & Hinit & ->)%as_role_inv. simpl.
    unfold mediator_init in Hinit.
    destruct (transfer_expiration from_transfer) as [e|]; simpl in Hinit;
      [|discriminate].
    destruct (on_channel (channels s) _ _) as [[channels1 []]|];
      simpl in Hinit; [|discriminate].
    eapply mediator_try_route_hashlock; eassumption.
  - apply start_role_distinct; [exact Hs|].
    intros channels' r events (st & Hinit & ->)%as_role_inv. simpl.
    unfold target_init in Hinit.
    destruct (transfer_expiration from_transfer) as [e|]; simpl in Hinit;
      [|discriminate].
    destruct (on_channel (channels s) _ _) as [[channels1 []]|];
      simpl in Hinit; [|discriminate].
    destruct (_ <? e)%Z; now injection Hinit as _ <- _.
  - destruct (channels s !! id); [exact Hs|].
    destruct (default_reveal_timeout <? settle)%Z; exact Hs.
  - unfold update_channel. destruct (channels s !! id) as [c|]; [|exact Hs].
    destruct (is_settled c); exact Hs.
  - unfold update_channel. destruct (channels s !! id) as [c|]; [|exact Hs].
    destruct (state c); exact Hs.
  - unfold update_channel. destruct (channels s !! id) as [c|]; [|exact Hs].
    destruct (state c); exact Hs.
  - destruct (channels s !! id); [|exact Hs]. now apply to_role_distinct.
Qed.

Lemma replay_distinct log s events :
  replay empty_state log s events -> NoDup (live_hashlocks (roles s)).
Proof.
  assert (NoDup (live_hashlocks (roles empty_state))) as Hempty by constructor.
  revert Hempty. generalize empty_state.
  intros s0 Hs0 Hreplay. induction Hreplay as [s|s sc log' s1 ev s2 ev' Hd _ IH];
    [exact Hs0|].
  apply IH. pose proof (dispatch_distinct s sc Hs0) as Hstep.
  now rewrite Hd in Hstep.
Qed.

End Core_dispatch.

Section Core_dispatch_examples.
Import Core.

Lemma example_log_replays :
  replay (crypto := example_adapter) (params := example_params)
    empty_state example_log (fst (run_log example_log)) (snd (run_log example_log)).
Proof. apply replay_log_spec. unfold run_log. now destruct (replay_log _ _). Qed.

End Core_dispatch_examples.

Section Core_aggregate.
Import Core.
Context {crypto : CryptoAdapter} {params : ProtocolParams}.

Local Open Scope N_scope.

Lemma on_channel_reachable {A} channels id (op : Channel -> Channel * result A)
    channels' a :
  (forall c c' a', reachable c -> op c = (c', Ok a') -> reachable c') ->
  channels_reachable channels ->
  on_channel channels id op = Some (channels', a) ->
  channels_reachable channels'.
Proof.
  intros Hop Hall Hon.
  apply on_channel_some in Hon as (c & c' & Hc & Hopc & ->).
  apply map_Forall_insert_2; [|exact Hall].
  eapply Hop; [|exact Hopc]. exact (Hall id c Hc).
Qed.

Lemma add_lock_reachable channels id lock channels' a :
  channels_reachable channels ->
  on_channel channels id (fun c => add_lock c lock) = Some (channels', a) ->
  channels_reachable channels'.
Proof. apply on_channel_reachable. ledger_op_reaches. Qed.

Lemma remove_lock_reachable channels id h channels' a :
  channels_reachable channels ->
  on_channel channels id (fun c => remove_lock c h) = Some (channels', a) ->
  channels_reachable channels'.
Proof. apply on_channel_reachable. ledger_op_reaches. Qed.

Lemma apply_proof_reachable channels id (proof : Channel -> BalanceProof)
    (sender : Channel -> N) channels' a :
  channels_reachable channels ->
  on_channel channels id (fun c => apply_balance_proof c (proof c) (sender c))
  = Some (channels', a) ->
  channels_reachable channels'.
Proof.
  apply on_channel_reachable. intros c c' delta Hc Hop.
  eapply reach_balance_proof; eassumption.
Qed.

Lemma unlock_own_reachable channels id h amount channels' proof :
  channels_reachable channels ->
  unlock_own channels id h amount = Some (channels', proof) ->
  channels_reachable channels'.
Proof.
  unfold unlock_own. intros Hall.
  destruct (channels !! id) as [c|]; simpl; [|discriminate].
  destruct (on_channel channels id _) as [[channels1 d]|] eqn:Happly;
    simpl; [|discriminate].
  destruct (on_channel channels1 id _) as [[channels2 []]|] eqn:Hremove;
    simpl; [|discriminate].
  intros [= <- _].
  eapply remove_lock_reachable; [|exact Hremove].
  eapply (apply_proof_reachable channels id (fun _ => next_own_proof c h amount)
            participant_self); [exact Hall|exact Happly].
Qed.

Lemma unlock_partner_reachable channels id proof sender h channels' :
  channels_reachable channels ->
  unlock_partner channels id proof sender h = Some channels' ->
  channels_reachable channels'.
Proof.
  unfold unlock_partner. intros Hall.
  destruct (on_channel channels id _) as [[channels1 d]|] eqn:Happly;
    simpl; [|discriminate].
  destruct (on_channel channels1 id _) as [[channels2 []]|] eqn:Hremove;
    simpl; [|discriminate].
  intros [= <-].
  eapply remove_lock_reachable; [|exact Hremove].
  eapply (apply_proof_reachable channels id (fun _ => proof) (fun _ => sender));
    [exact Hall|exact Happly].
Qed.

Lemma initiator_try_route_reachable block channels transfer routes channels' st events :
  channels_reachable channels ->
  initiator_try_route block channels transfer routes = Some (channels', st, events) ->
  channels_reachable channels'.
Proof.
  unfold initiator_try_route. intros Hall.
  destruct (next_route routes ∅ _) as [route|]; [|now intros [= <- _ _]].
  destruct (on_channel channels (route_channel route) _) as [[channels1 []]|] eqn:Hadd;
    simpl; [|discriminate].
  intros [= <- _ _]. eapply add_lock_reachable; eassumption.
Qed.

Lemma mediator_try_route_reachable channels from_route from_transfer routes e
    channels' st events :
  channels_reachable channels ->
  mediator_try_route channels from_route from_transfer routes e
  = Some (channels', st, events) ->
  channels_reachable channels'.
Proof.
  unfold mediator_try_route. intros Hall.
  destruct (next_route routes _ _) as [route|]; [|now intros [= <- _ _]].
  destruct (on_channel channels (route_channel route) _) as [[channels1 []]|] eqn:Hadd;
    simpl; [|discriminate].
  intros [= <- _ _]. eapply add_lock_reachable; eassumption.
Qed.

Lemma initiator_step_reachable block channels st sc channels' st' events :
  channels_reachable channels ->
  initiator_step block channels st sc = Some (channels', st', events) ->
  channels_reachable channels'.
Proof.
  unfold initiator_step. intros Hall.
  destruct sc as [ n | | | | h amount sender | s' sender | | h sender | | | | | ];
    try discriminate;
    destruct (i_phase st); try discriminate;
    destruct (i_route st) as [route|]; try discriminate.
  - destruct (secret (i_transfer st));
      (destruct (transfer_expiration (i_transfer st)) as [e|]; [|discriminate]);
      (destruct (e <? n)%Z; [|discriminate]);
      now apply initiator_try_route_reachable.
  - destruct (secret (i_transfer st)); [|discriminate].
    destruct (_ && _); [|discriminate]. now intros [= <- _ _].
  - destruct (secret (i_transfer st)) as [s|]; [|discriminate].
    destruct (s' =? s); [|discriminate].
    destruct (unlock_own channels _ _ _) as [[channels1 proof]|] eqn:Hunlock;
      simpl; [|discriminate].
    intros [= <- _ _]. eapply unlock_own_reachable; eassumption.
  - destruct (secret (i_transfer st));
      (destruct (sender =? node_address route); [|discriminate]);
      now apply initiator_try_route_reachable.
Qed.

Lemma mediator_step_reachable block channels st sc channels' st' events :
  channels_reachable channels ->
  mediator_step block channels st sc = Some (channels', st', events) ->
  channels_reachable channels'.
Proof.
  unfold mediator_step. intros Hall.
  destruct sc as [ n | | | | | s' sender | proof s' sender | | | | | | ];
    try discriminate;
    destruct (m_phase st); try discriminate;
    destruct (m_route st) as [route|]; try discriminate.
  - destruct (m_expiration st <? n)%Z; [|discriminate].
    destruct (transfer_expiration (m_from_transfer st)) as [e|]; [|discriminate].
    destruct (e <? n)%Z; [now intros [= <- _ _]|].
    now apply mediator_try_route_reachable.
  - destruct (_ && _); [|discriminate].
    destruct (unlock_own channels _ _ _) as [[channels1 proof]|] eqn:Hunlock;
      simpl; [|discriminate].
    intros [= <- _ _]. eapply unlock_own_reachable; eassumption.
  - destruct (_ && _); [|discriminate].
    destruct (unlock_partner channels _ proof sender _) as [channels1|] eqn:Hunlock;
      simpl; [|discriminate].
    intros [= <- _ _]. eapply unlock_partner_reachable; eassumption.
Qed.

Lemma target_step_reachable block channels st sc channels' st' events :
  channels_reachable channels ->
  target_step block channels st sc = Some (channels', st', events) ->
  channels_reachable channels'.
Proof.
  unfold target_step. intros Hall.
  destruct sc as [ n | | | | | s' sender | proof s' sender | | | | | | ];
    try discriminate;
    destruct (t_phase st); try discriminate.
  - destruct (secret (t_from_transfer st)); [discriminate|].
    destruct (transfer_expiration (t_from_transfer st)) as [e|]; [|discriminate].
    destruct (e <? n)%Z; [|discriminate]. now intros [= <- _ _].
  - destruct (sha3 s' =? _); [|discriminate]. now intros [= <- _ _].
  - destruct (_ && _); [|discriminate].
    destruct (unlock_partner channels _ proof sender _) as [channels1|] eqn:Hunlock;
      simpl; [|discriminate].
    intros [= <- _ _]. eapply unlock_partner_reachable; eassumption.
Qed.

Lemma role_step_reachable block channels r sc channels' r' events :
  channels_reachable channels ->
  role_step block channels r sc = Some (channels', r', events) ->
  channels_reachable channels'.
Proof.
  intros Hall. destruct r as [st|st|st]; simpl;
    intros (st' & Hstep & _)%as_role_inv.
  - eapply initiator_step_reachable; eassumption.
  - eapply mediator_step_reachable; eassumption.
  - eapply target_step_reachable; eassumption.
Qed.

Lemma deliver_reachable block h sc rs :
  forall channels channels' rs' events,
    channels_reachable channels ->
    deliver block channels h sc rs = Some (channels', rs', events) ->
    channels_reachable channels'.
Proof.
  induction rs as [|r rs IH]; intros channels channels' rs' events Hall; simpl;
    [discriminate|].
  destruct (role_hashlock r =? h).
  - destruct (role_step block channels r sc) as [[[channels1 r1] events1]|] eqn:Hstep;
      simpl; [|discriminate].
    intros [= <- _ _]. eapply role_step_reachable; eassumption.
  - destruct (deliver block channels h sc rs) as [[[channels1 rs1] events1]|] eqn:Hrest;
      simpl; [|discriminate].
    intros [= <- _ _]. eapply IH; eassumption.
Qed.

Lemma advance_reachable n rs :
  forall channels, channels_reachable channels ->
                   channels_reachable (fst (fst (advance n channels rs))).
Proof.
  induction rs as [|r rs IH]; intros channels Hall; simpl; [exact Hall|].
  destruct (role_step n channels r (Block n)) as [[[channels1 r1] events1]|] eqn:Hstep.
  - specialize (IH channels1 (role_step_reachable _ _ _ _ _ _ _ Hall Hstep)).
    destruct (advance n channels1 rs) as [[channels2 rs2] events2]. exact IH.
  - specialize (IH channels Hall).
    destruct (advance n channels rs) as [[channels2 rs2] events2]. exact IH.
Qed.

Lemma to_role_reachable s h sc :
  channels_reachable (channels s) ->
  channels_reachable (channels (fst (to_role s h sc))).
Proof.
  intros Hall. unfold to_role.
  destruct (deliver _ _ h sc (roles s)) as [[[channels1 rs1] events1]|] eqn:Hd;
    simpl; [|exact Hall].
  eapply deliver_reachable; eassumption.
Qed.

Lemma start_role_reachable s h init :
  channels_reachable (channels s) ->
  (forall channels' r events, init = Some (channels', r, events) ->
                              channels_reachable channels') ->
  channels_reachable (channels (fst (start_role s h init))).
Proof.
  intros Hall Hinit. unfold start_role.
  destruct (existsb _ (roles s)); [exact Hall|].
  destruct init as [[[channels1 r] events]|]; simpl; [|exact Hall].
  eapply Hinit. reflexivity.
Qed.

Lemma update_channel_reachable s id f :
  channels_reachable (channels s) ->
  (forall c c', reachable c -> f c = Some c' -> reachable c') ->
  channels_reachable (channels (update_channel s id f)).
Proof.
  intros Hall Hf. unfold update_channel.
  destruct (channels s !! id) as [c|] eqn:Hc; [|exact Hall].
  destruct (f c) as [c'|] eqn:Hfc; [|exact Hall]. simpl.
  apply map_Forall_insert_2; [|exact Hall].
  eapply Hf; [|exact Hfc]. exact (Hall id c Hc).
Qed.

(** [dispatch] changes channels by ledger operations only. *)
Lemma dispatch_reachable s sc :
  channels_reachable (channels s) ->
  channels_reachable (channels (fst (dispatch s sc))).
Proof.
  intros Hall. destruct sc as [ n | transfer routes | from_route from_transfer routes
                              | from_route from_transfer | h amount sender
                              | s' sender | proof s' sender | h sender
                              | id self partner settle | id participant total
                              | id closing n | id n | id s' ]; simpl.
  - destruct (n <? block_number s)%Z; [exact Hall|].
    pose proof (advance_reachable n (roles s) (channels s) Hall) as Hadv.
    destruct (advance n (channels s) (roles s)) as [[channels1 rs1] events1].
    exact Hadv.
  - apply start_role_reachable; [exact Hall|].
    intros channels' r events (st & Hinit & _)%as_role_inv.
    unfold initiator_init in Hinit.
    destruct (secret transfer) as [s'|]; [|discriminate].
    destruct (sha3 s' =? _); [|discriminate].
    eapply initiator_try_route_reachable; eassumption.
  - apply start_role_reachable; [exact Hall|].
    intros channels' r events (st & Hinit & _)%as_role_inv.
    unfold mediator_init in Hinit.
    destruct (transfer_expiration from_transfer) as [e|]; simpl in Hinit;
      [|discriminate].
    destruct (on_channel (channels s) _ _) as [[channels1 []]|] eqn:Hadd;
      simpl in Hinit; [|discriminate].
    eapply mediator_try_route_reachable; [|exact Hinit].
    eapply add_lock_reachable; eassumption.
  - apply start_role_reachable; [exact Hall|].
    intros channels' r events (st & Hinit & _)%as_role_inv.
    unfold target_init in Hinit.
    destruct (transfer_expiration from_transfer) as [e|]; simpl in Hinit;
      [|discriminate].
    destruct (on_channel (channels s) _ _) as [[channels1 []]|] eqn:Hadd;
      simpl in Hinit; [|discriminate].
    assert (channels_reachable channels1)
      by (eapply add_lock_reachable; eassumption).
    destruct (_ <? e)%Z; now injection Hinit as <- _ _.
  - now apply to_role_reachable.
  - now apply to_role_reachable.
  - now apply to_role_reachable.
  - now apply to_role_reachable.
  - destruct (channels s !! id); [exact Hall|].
    destruct (default_reveal_timeout <? settle)%Z; [|exact Hall]. simpl.
    apply map_Forall_insert_2; [apply reach_opened|exact Hall].
  - apply update_channel_reachable; [exact Hall|].
    intros c c' Hc. destruct (is_settled c); [discriminate|].
    intros [= <-]. now apply reach_deposit.
  - apply update_channel_reachable; [exact Hall|].
    intros c c' Hc. destruct (state c); try discriminate.
    intros [= <-]. now apply reach_state.
  - apply update_channel_reachable; [exact Hall|].
    intros c c' Hc. destruct (state c); try discriminate.
    intros [= <-]. now apply reach_state.
  - destruct (channels s !! id); [|exact Hall]. now apply to_role_reachable.
Qed.

Lemma replay_reachable s0 log s events :
  replay s0 log s events ->
  channels_reachable (channels s0) -> channels_reachable (channels s).
Proof.
  induction 1 as [s|s sc log' s1 ev s2 ev' Hd _ IH]; intros Hs0; [exact Hs0|].
  apply IH. pose proof (dispatch_reachable s sc Hs0) as Hstep.
  now rewrite Hd in Hstep.
Qed.

(** C1. Every channel state [c] reached from an opened channel by applied
    deposits, lock additions and removals, and accepted balance proofs keeps
    [own_balance_proof.transferred_amount + sum(pending lock amounts)
     <= own_deposit + partner_deposit]; and so does every channel [c'] of
    every aggregate state that a log replays to from the empty state. *)
Theorem no_overspend_invariant (c : Channel) (log : list StateChange)
    (s : AggregateState) (events : list Event) (id : N) (c' : Channel) :
  reachable c ->
  replay empty_state log s events ->
  channels s !! id = Some c' ->
  no_overspend c /\ reachable c' /\ no_overspend c'.
Proof.
  intros Hc Hreplay Hc'.
  split; [now apply reachable_keeps_invariant|].
  assert (reachable c') as Hreach.
  { exact (replay_reachable _ _ _ _ Hreplay (map_Forall_empty _) id c' Hc'). }
  split; [exact Hreach|now apply reachable_keeps_invariant].
Qed.

End Core_aggregate.

Section Core_aggregate_examples.
Import Core.
Local Open Scope N_scope.

Lemma no_overspend_invariant_witness :
  no_overspend example_paid /\
  reachable (crypto := example_adapter) example_replayed_channel /\
  no_overspend example_replayed_channel.
Proof.
  apply (no_overspend_invariant (crypto := example_adapter)
           (params := example_params) example_paid
           example_log (fst (run_log example_log)) (snd (run_log example_log)) 2).
  - exact example_paid_reachable.
  - exact example_log_replays.
  - vm_compute. reflexivity.
Defined.

End Core_aggregate_examples.


(* ===================================================================== *)
(** * Part III: further properties of the embedded code                   *)
(* ===================================================================== *)

Section E2E_path_more.
Import Py E2E.

(** What [mediated_transfer_almost_equal] and the expiration assertion keep
    between any two hops, not only neighbours. *)
Lemma same_transfer_trans t1 t2 t3 :
  same_transfer t1 t2 -> same_transfer t2 t3 -> same_transfer t1 t3.
Proof.
  unfold same_transfer.
  intros (? & ? & ? & ? & ? & ?) (? & ? & ? & ? & ? & ?).
  repeat split; congruence.
Qed.

Lemma accepted_hops transfers :
  assert_path_mediated_transfer transfers = Returns tt ->
  forall d i a b,
    transfers !! i = Some a -> transfers !! (i + S d)%nat = Some b ->
    exists first second,
      a = IsMediatedTransfer first /\ b = IsMediatedTransfer second /\
      same_transfer first second /\
      expiration (lock first) > expiration (lock second).
Proof.
  intros Hok. apply assert_path_returns in Hok as [_ Hloop].
  induction d as [|d IH]; intros i a b Ha Hb.
  - replace (i + 1)%nat with (S i) in Hb by lia.
    assert (consecutive transfers a b) as Hadj by (exists i; auto).
    apply Hloop, path_step_returns in Hadj
      as (first & second & -> & -> & Hsame & _ & Hexp).
    exists first, second. auto.
  - destruct (transfers !! (i + S d)%nat) as [m|] eqn:Hm.
    + destruct (IH i a m Ha Hm) as (first & middle & -> & -> & Hsame1 & Hexp1).
      replace (i + S (S d))%nat with (S (i + S d)) in Hb by lia.
      assert (consecutive transfers (IsMediatedTransfer middle) b) as Hadj
        by (exists (i + S d)%nat; auto).
      apply Hloop, path_step_returns in Hadj
        as (middle' & second & [= <-] & -> & Hsame2 & _ & Hexp2).
      exists first, second.
      split; [reflexivity|]. split; [reflexivity|]. split; [|lia].
      eapply same_transfer_trans; eassumption.
    + apply lookup_ge_None in Hm. apply lookup_lt_Some in Hb. lia.
Qed.

(** X1. In a path that [assert_path_mediated_transfer] accepts, any two
    hops, however far apart, carry the same transfer (identifier, token,
    lock amount, hashlock, target, initiator), the earlier one with the
    strictly later lock expiration; so no message occurs twice. *)
Theorem accepted_path_any_two_hops transfers i j a b :
  assert_path_mediated_transfer transfers = Returns tt ->
  (i < j)%nat ->
  transfers !! i = Some a ->
  transfers !! j = Some b ->
  (exists first second,
      a = IsMediatedTransfer first /\ b = IsMediatedTransfer second /\
      same_transfer first second /\
      expiration (lock first) > expiration (lock second)) /\
  NoDup transfers.
Proof.
  intros Hok Hlt Ha Hb. split.
  - replace j with (i + S (j - i - 1))%nat in Hb by lia.
    exact (accepted_hops transfers Hok _ _ _ _ Ha Hb).
  - apply NoDup_alt. intros i' j' x Hi' Hj'.
    destruct (Nat.lt_trichotomy i' j') as [Hlt'|[Heq|Hgt]]; [|exact Heq|].
    + replace j' with (i' + S (j' - i' - 1))%nat in Hj' by lia.
      destruct (accepted_hops transfers Hok _ _ _ _ Hi' Hj')
        as (first & second & -> & [= <-] & _ & Hexp). lia.
    + replace i' with (j' + S (i' - j' - 1))%nat in Hi' by lia.
      destruct (accepted_hops transfers Hok _ _ _ _ Hj' Hi')
        as (first & second & -> & [= <-] & _ & Hexp). lia.
Qed.

Lemma accepted_path_any_two_hops_witness :
  (exists first second,
      IsMediatedTransfer hop_0_3 = IsMediatedTransfer first /\
      IsMediatedTransfer hop_3_2 = IsMediatedTransfer second /\
      same_transfer first second /\
      expiration (lock first) > expiration (lock second)) /\
  NoDup path_0_3_2.
Proof.
  apply (accepted_path_any_two_hops path_0_3_2 0 1).
  - vm_compute. reflexivity.
  - lia.
  - reflexivity.
  - reflexivity.
Defined.

End E2E_path_more.

Section E2E_path_laws.
Import Py E2E.

Lemma consecutive_app (p q : list message) a b :
  consecutive (p ++ q) a b
  <-> consecutive p a b \/ consecutive q a b \/ (last p = Some a /\ head q = Some b).
Proof.
  unfold consecutive. rewrite last_lookup, head_lookup. split.
  - intros (i & Ha & Hb).
    destruct (decide (S i < length p)%nat) as [Hin|Hout].
    + left. exists i. rewrite !lookup_app_l in * by lia. auto.
    + destruct (decide (length p <= i)%nat) as [Hq|Hj].
      * right. left. exists (i - length p)%nat.
        rewrite !lookup_app_r in * by lia.
        replace (S (i - length p)) with (S i - length p)%nat by lia. auto.
      * right. right. assert (S i = length p) as Hlen by lia.
        rewrite lookup_app_l in Ha by lia.
        rewrite lookup_app_r in Hb by lia.
        replace (S i - length p)%nat with 0%nat in Hb by lia.
        replace (pred (length p)) with i by lia. auto.
  - intros [(i & Ha & Hb)|[(i & Ha & Hb)|[Ha Hb]]].
    + exists i. pose proof (lookup_lt_Some _ _ _ Hb).
      rewrite !lookup_app_l by lia. auto.
    + exists (length p + i)%nat.
      replace (S (length p + i)) with (length p + S i)%nat by lia.
      rewrite !lookup_app_r by lia.
      replace (length p + i - length p)%nat with i by lia.
      replace (length p + S i - length p)%nat with (S i) by lia. auto.
    + exists (pred (length p)). pose proof (lookup_lt_Some _ _ _ Ha).
      rewrite lookup_app_l by lia. rewrite lookup_app_r by lia.
      replace (S (pred (length p)) - length p)%nat with 0%nat by lia. auto.
Qed.

(** X2. A path joined from two parts is accepted exactly when both parts are
    accepted and the last message of the first part with the first message
    of the second passes the checks made on neighbours; in particular every
    prefix and every suffix of an accepted path is accepted. *)
Theorem assert_path_joined (p q : list message) :
  assert_path_mediated_transfer (p ++ q) = Returns tt
  <-> assert_path_mediated_transfer p = Returns tt /\
      assert_path_mediated_transfer q = Returns tt /\
      (forall a b, last p = Some a -> head q = Some b ->
                   path_step (a, b) = Returns tt).
Proof.
  rewrite !assert_path_returns, forallb_app, andb_true_iff. split.
  - intros [[Hp Hq] Hloop]. repeat split; try assumption.
    + intros a b Hadj. apply Hloop, consecutive_app. auto.
    + intros a b Hadj. apply Hloop, consecutive_app. auto.
    + intros a b Ha Hb. apply Hloop, consecutive_app. auto.
  - intros ([Hp Hloop_p] & [Hq Hloop_q] & Hjoin). split; [auto|].
    intros a b [Hadj|[Hadj|[Ha Hb]]]%consecutive_app; auto.
Qed.

Lemma for_each_raises {A} (body : A -> outcome unit) (xs : list A) e :
  for_each body xs = Raises e -> exists x, In x xs /\ body x = Raises e.
Proof.
  induction xs as [|x xs IH]; simpl; [discriminate|].
  destruct (body x) as [[]|e'] eqn:Hx; unfold mbind, outcome_bind; simpl.
  - intros H. destruct (IH H) as (y & Hy & Hbody). eauto.
  - intros [= <-]. eauto.
Qed.

Lemma path_step_mediated_raises first second e :
  path_step (IsMediatedTransfer first, IsMediatedTransfer second) = Raises e ->
  exists msg, e = AssertionError msg.
Proof.
  unfold path_step, mediated_transfer_almost_equal, py_assert; simpl.
  unfold mbind, outcome_bind; simpl.
  repeat (case_bool_decide; simpl); try (intros [= <-]; eauto).
  destruct (expiration (lock first) >? expiration (lock second));
    [discriminate|intros [= <-]; eauto].
Qed.

(** X3. Whatever it is given, [assert_path_mediated_transfer] fails only by
    [AssertionError]: the type assertion comes first, so no attribute of a
    message of another class is ever read; a message of another class
    anywhere in the path gives the type assertion's message, whatever the
    pairs before it; and the empty path and a single [MediatedTransfer] are
    accepted. *)
Theorem assert_path_fails_by_assertion (transfers : list message) (e : exn) :
  assert_path_mediated_transfer transfers = Raises e ->
  (exists msg, e = AssertionError msg) /\
  (forallb isinstance_MediatedTransfer transfers = false ->
   e = AssertionError "all transfers must be of type MediatedTransfer") /\
  (forallb isinstance_MediatedTransfer transfers = true ->
   (2 <= length transfers)%nat).
Proof.
  unfold assert_path_mediated_transfer.
  destruct (forallb isinstance_MediatedTransfer transfers) eqn:Hall; simpl.
  - unfold mbind, outcome_bind; simpl. intros Hloop.
    split; [|split; [discriminate|]].
    + apply for_each_raises in Hloop as ([a b] & Hin & Hstep).
      apply list_elem_of_In, list_elem_of_lookup in Hin as [i Hi].
      apply zip_adjacent in Hi as [Ha Hb].
      rewrite forallb_forall in Hall.
      assert (isinstance_MediatedTransfer a = true) as Hma.
      { apply Hall, list_elem_of_In, list_elem_of_lookup. eauto. }
      assert (isinstance_MediatedTransfer b = true) as Hmb.
      { apply Hall, list_elem_of_In, list_elem_of_lookup. eauto. }
      destruct a as [first|]; [|discriminate].
      destruct b as [second|]; [|discriminate].
      eapply path_step_mediated_raises. eassumption.
    + intros _. destruct transfers as [|a [|b rest]]; simpl in *;
        try discriminate. lia.
  - unfold mbind, outcome_bind; simpl. intros [= <-].
    split; [eauto|]. split; [reflexivity|discriminate].
Qed.

Lemma assert_path_fails_by_assertion_witness :
  (exists msg, AssertionError "all transfers must be of type MediatedTransfer"
               = AssertionError msg) /\
  (forallb isinstance_MediatedTransfer
     [IsMediatedTransfer hop_3_2; IsMediatedTransfer hop_0_3;
      OtherMessage "DirectTransfer"] = false ->
   AssertionError "all transfers must be of type MediatedTransfer"
   = AssertionError "all transfers must be of type MediatedTransfer") /\
  (forallb isinstance_MediatedTransfer
     [IsMediatedTransfer hop_3_2; IsMediatedTransfer hop_0_3;
      OtherMessage "DirectTransfer"] = true ->
   (2 <= length [IsMediatedTransfer hop_3_2; IsMediatedTransfer hop_0_3;
                 OtherMessage "DirectTransfer"])%nat).
Proof.
  apply (assert_path_fails_by_assertion
           [IsMediatedTransfer hop_3_2; IsMediatedTransfer hop_0_3;
            OtherMessage "DirectTransfer"]).
  reflexivity.
Defined.

(** X4. As a test, [mediated_transfer_almost_equal] is an equivalence on
    transfers: it passes on a transfer and itself, passes both ways round,
    and passes on the ends of a chain it passes on; when the identifiers
    differ it reports them, whatever else differs. *)
Theorem almost_equal_equivalence (a b c : MediatedTransfer) :
  mediated_transfer_almost_equal a a = Returns tt /\
  (mediated_transfer_almost_equal a b = Returns tt ->
   mediated_transfer_almost_equal b a = Returns tt) /\
  (mediated_transfer_almost_equal a b = Returns tt ->
   mediated_transfer_almost_equal b c = Returns tt ->
   mediated_transfer_almost_equal a c = Returns tt) /\
  (identifier a <> identifier b ->
   mediated_transfer_almost_equal a b
   = Raises (AssertionError "identifier doesn't match")).
Proof.
  rewrite !almost_equal_returns. unfold same_transfer.
  split; [tauto|]. split; [intuition congruence|]. split; [intuition congruence|].
  intros Hid. unfold mediated_transfer_almost_equal, py_assert.
  rewrite (bool_decide_eq_false_2 (identifier a = identifier b)) by exact Hid.
  reflexivity.
Qed.

End E2E_path_laws.

Section E2E_entries_more.
Import Py E2E.

Variable getattr : pyval -> string -> outcome pyval.
Variable py_ne : pyval -> pyval -> bool.

#[local] Abbreviation check_nested_attrs := (check_nested_attrs getattr py_ne).
#[local] Abbreviation check_value := (check_value getattr py_ne).
#[local] Abbreviation must_contain_entry := (must_contain_entry getattr py_ne).

(** X5. Checking expected data given in two parts is checking the first
    part and then, only if it returned [True], the second: an error, a
    mismatch or a missing attribute in the first part decides the outcome,
    and nothing of the second part is then read.  On the built-in [dict]
    both sides are the [AttributeError] of [iteritems]. *)
Theorem check_nested_attrs_in_two_parts item cls
    (data1 data2 : list (string * pyval)) :
  check_nested_attrs item cls (data1 ++ data2) =
  (ok ← check_nested_attrs item cls data1 ;
   if (ok : bool) then check_nested_attrs item cls data2 else Returns false).
Proof.
  destruct cls as [|cname]; [reflexivity|].
  induction data1 as [|[name value] rest IH]; [reflexivity|].
  simpl app. rewrite !(check_nested_attrs_cons getattr py_ne).
  destruct (getattr item name) as [iv|e]; [|reflexivity]. run_bind.
  destruct (check_value iv value) as [[|]|e]; run_bind;
    [exact IH|reflexivity|reflexivity].
Qed.

(** X8. Searching a list joined from two parts is searching the first part
    and then, only if nothing matched and nothing was raised there, the
    second; and the answer on a list is [False] exactly when
    [check_nested_attrs] returns [False] on every entry of the wanted
    type, which on the built-in [dict] means that the list has no entry of
    that type. *)
Theorem must_contain_entry_in_two_parts (list1 list2 : list pyval) type_ cls data :
  must_contain_entry (list1 ++ list2) type_ cls data =
  (found ← must_contain_entry list1 type_ cls data ;
   if (found : bool) then Returns true
   else must_contain_entry list2 type_ cls data) /\
  (must_contain_entry list1 type_ cls data = Returns false
   <-> Forall (fun item => isinstance item type_ = true ->
                           check_nested_attrs item cls data = Returns false)
              list1) /\
  (must_contain_entry list1 type_ dict_ data = Returns false
   <-> Forall (fun item => isinstance item type_ = false) list1).
Proof.
  split; [|split].
  - induction list1 as [|item rest IH]; [reflexivity|].
    simpl app. rewrite !(must_contain_entry_cons getattr py_ne).
    destruct (isinstance item type_); [|exact IH].
    destruct (check_nested_attrs item cls data) as [[|]|e]; run_bind;
      [reflexivity|exact IH|reflexivity].
  - induction list1 as [|item rest IH].
    + split; [constructor|reflexivity].
    + rewrite (must_contain_entry_cons getattr py_ne), Forall_cons.
      destruct (isinstance item type_).
      * destruct (check_nested_attrs item cls data) as [[|]|e]; run_bind.
        -- split; [discriminate|]. intros [H _]. specialize (H eq_refl). discriminate.
        -- rewrite IH. tauto.
        -- split; [discriminate|]. intros [H _]. specialize (H eq_refl). discriminate.
      * rewrite IH. split; [intros ?; split; [discriminate|assumption]|tauto].
  - induction list1 as [|item rest IH].
    + split; [constructor|reflexivity].
    + rewrite (must_contain_entry_cons getattr py_ne), Forall_cons,
        (check_nested_attrs_dict getattr py_ne).
      destruct (isinstance item type_); run_bind.
      * split; [discriminate|]. intros [H _]. discriminate.
      * rewrite IH. tauto.
Qed.

End E2E_entries_more.

Section Console_wait_more.
Import Console.

Variable number : Type.
Variable add : number -> number -> number.
Variable gt : number -> number -> bool.
Variable truth : number -> bool.

#[local] Abbreviation wait_loop := (wait_loop number add gt truth).
#[local] Abbreviation wait_for_contract := (wait_for_contract number add gt truth).
#[local] Abbreviation gives_up w timeout i :=
  (timeout_and number add gt truth timeout (time number w 0) (time number w (S i))).

(** The loop entered for its test number [j]: [result] is the answer to
    query [j], [current_time] is reading [j + 1]. *)
Lemma wait_loop_false (w : world number) timeout fuel :
  forall j,
    wait_loop w timeout (time number w 0) (getCode number w j)
              (time number w (S j)) (S j) fuel = Some false
    <-> exists k, (j <= k < j + fuel)%nat /\
                  (forall i, (j <= i <= k)%nat -> getCode number w i = []) /\
                  (forall i, (j <= i < k)%nat -> gives_up w timeout i = false) /\
                  gives_up w timeout k = true.
Proof.
  induction fuel as [|fuel IH]; intros j; simpl.
  - split; [discriminate|]. intros (k & Hk & _). lia.
  - destruct (getCode number w j) as [|b code] eqn:Hcode; simpl.
    + destruct (gives_up w timeout j) eqn:Hgive.
      * split; [intros _|reflexivity]. exists j.
        split; [lia|]. split; [|split; [intros i Hi; lia|exact Hgive]].
        intros i Hi. now replace i with j by lia.
      * rewrite IH. split.
        -- intros (k & Hk & Hempty & Hgo & Hstop). exists k.
           split; [lia|]. split; [|split; [|exact Hstop]].
           ++ intros i Hi. destruct (decide (i = j)) as [->|Hne]; [exact Hcode|].
              apply Hempty. lia.
           ++ intros i Hi. destruct (decide (i = j)) as [->|Hne]; [exact Hgive|].
              apply Hgo. lia.
        -- intros (k & Hk & Hempty & Hgo & Hstop).
           destruct (decide (k = j)) as [->|Hne]; [congruence|].
           exists k. split; [lia|]. split; [|split; [|exact Hstop]].
           ++ intros i Hi. apply Hempty. lia.
           ++ intros i Hi. apply Hgo. lia.
    + split; [discriminate|]. intros (k & Hk & Hempty & _).
      specialize (Hempty j ltac:(lia)). congruence.
Qed.

Lemma wait_loop_true_iff (w : world number) timeout fuel :
  forall j,
    wait_loop w timeout (time number w 0) (getCode number w j)
              (time number w (S j)) (S j) fuel = Some true
    <-> exists k, (j <= k < j + fuel)%nat /\
                  (forall i, (j <= i < k)%nat ->
                             getCode number w i = [] /\
                             gives_up w timeout i = false) /\
                  getCode number w k <> [].
Proof.
  induction fuel as [|fuel IH]; intros j; simpl.
  - split; [discriminate|]. intros (k & Hk & _). lia.
  - destruct (getCode number w j) as [|b code] eqn:Hcode; simpl.
    + destruct (gives_up w timeout j) eqn:Hgive.
      * split; [discriminate|]. intros (k & Hk & Hgo & Hfound).
        destruct (decide (k = j)) as [->|Hne]; [congruence|].
        destruct (Hgo j ltac:(lia)) as [_ Hno]. congruence.
      * rewrite IH. split.
        -- intros (k & Hk & Hgo & Hfound). exists k.
           split; [lia|]. split; [|exact Hfound].
           intros i Hi. destruct (decide (i = j)) as [->|Hne]; [auto|].
           apply Hgo. lia.
        -- intros (k & Hk & Hgo & Hfound).
           destruct (decide (k = j)) as [->|Hne]; [congruence|].
           exists k. split; [lia|]. split; [|exact Hfound].
           intros i Hi. apply Hgo. lia.
    + split; [intros _|reflexivity]. exists j.
      split; [lia|]. split; [intros i Hi; lia|]. rewrite Hcode. discriminate.
Qed.

Lemma wait_loop_running (w : world number) timeout fuel :
  forall j,
    wait_loop w timeout (time number w 0) (getCode number w j)
              (time number w (S j)) (S j) fuel = None
    <-> forall i, (j <= i < j + fuel)%nat ->
                  getCode number w i = [] /\ gives_up w timeout i = false.
Proof.
  induction fuel as [|fuel IH]; intros j; simpl.
  - split; [intros _ i Hi; lia|reflexivity].
  - destruct (getCode number w j) as [|b code] eqn:Hcode; simpl.
    + destruct (gives_up w timeout j) eqn:Hgive.
      * split; [discriminate|]. intros H.
        destruct (H j ltac:(lia)) as [_ Hno]. congruence.
      * rewrite IH. split.
        -- intros H i Hi. destruct (decide (i = j)) as [->|Hne]; [auto|].
           apply H. lia.
        -- intros H i Hi. apply H. lia.
    + split; [discriminate|]. intros H.
      destruct (H j ltac:(lia)) as [Hempty _]. congruence.
Qed.

(** X9. [wait_for_contract] returns [False] exactly when, at one of its
    tests of the loop, the timeout is true as a condition and
    [start_time + timeout > current_time], while every query so far returned
    empty code and no earlier test gave up: it only ever gives up before the
    timeout has elapsed, never after. *)
Theorem wait_for_contract_false (w : world number) timeout (fuel : nat) :
  wait_for_contract w timeout fuel = Some false
  <-> exists k, (k < fuel)%nat /\
                (forall i, (i <= k)%nat -> getCode number w i = []) /\
                (forall i, (i < k)%nat -> gives_up w timeout i = false) /\
                gives_up w timeout k = true.
Proof.
  unfold Console.wait_for_contract. rewrite (wait_loop_false w timeout fuel 0).
  split; intros (k & Hk & Hempty & Hgo & Hstop); exists k;
    (split; [lia|]); (split; [|split; [|exact Hstop]]);
    intros i Hi; (apply Hempty || apply Hgo); lia.
Qed.

(** X10. [wait_for_contract] returns [True] exactly when some query returns
    non-empty code and no test before it gave up; it then returns at once,
    after that query. *)
Theorem wait_for_contract_true (w : world number) timeout (fuel : nat) :
  wait_for_contract w timeout fuel = Some true
  <-> exists k, (k < fuel)%nat /\
                (forall i, (i < k)%nat ->
                           getCode number w i = [] /\
                           gives_up w timeout i = false) /\
                getCode number w k <> [].
Proof.
  unfold Console.wait_for_contract. rewrite (wait_loop_true_iff w timeout fuel 0).
  split; intros (k & Hk & Hgo & Hfound); exists k;
    (split; [lia|]); (split; [|exact Hfound]);
    intros i Hi; apply Hgo; lia.
Qed.

(** X11. Without a timeout ([None], the default) [wait_for_contract] never
    returns [False]: it returns [True] once a query returns code, and while
    the contract is not mined it goes on polling, however long. *)
Theorem wait_for_contract_without_timeout (w : world number) (fuel : nat) :
  wait_for_contract w None fuel <> Some false /\
  (wait_for_contract w None fuel = None
   <-> forall i, (i < fuel)%nat -> getCode number w i = []) /\
  ((forall i, getCode number w i = []) ->
   forall fuel', wait_for_contract w None fuel' = None).
Proof.
  unfold Console.wait_for_contract. split; [|split].
  - intros H. apply (wait_loop_false w None fuel 0) in H
      as (k & _ & _ & _ & Hstop). discriminate.
  - rewrite (wait_loop_running w None fuel 0). split.
    + intros H i Hi. apply H. lia.
    + intros H i Hi. split; [|reflexivity]. apply H. lia.
  - intros Hnever fuel'. apply (wait_loop_running w None fuel' 0).
    intros i _. split; [apply Hnever|reflexivity].
Qed.

End Console_wait_more.

Section Console_log.
Import ConsoleLog.

Local Open Scope nat_scope.

Lemma split_cons sep s : exists piece pieces, split sep s = piece :: pieces.
Proof.
  induction s as [|c rest (piece & pieces & IH)]; simpl; [eauto|].
  destruct (Ascii.eqb c sep); [eauto|]. rewrite IH. eauto.
Qed.

Lemma split_pieces_without_sep sep s :
  Forall (fun piece => occurs sep piece = false) (split sep s).
Proof.
  induction s as [|c rest IH]; simpl; [repeat constructor|].
  destruct (Ascii.eqb c sep) eqn:Hc; [constructor; [reflexivity|exact IH]|].
  destruct (split sep rest) as [|piece pieces]; [repeat constructor; simpl; now rewrite Hc|].
  apply Forall_cons in IH as [Hpiece Hpieces].
  constructor; [simpl; now rewrite Hc|exact Hpieces].
Qed.

Lemma join_cons sep piece next pieces :
  join sep (piece :: next :: pieces)
  = (piece ++ String sep (join sep (next :: pieces)))%string.
Proof. reflexivity. Qed.

(** Joining the pieces gives the string back. *)
Lemma join_split sep s : join sep (split sep s) = s.
Proof.
  induction s as [|c rest IH]; [reflexivity|]. simpl split.
  destruct (split_cons sep rest) as (piece & pieces & Hsplit).
  rewrite Hsplit in *.
  destruct (Ascii.eqb_spec c sep) as [->|Hne].
  - rewrite join_cons, IH. reflexivity.
  - destruct pieces as [|next pieces].
    + simpl in *. now rewrite IH.
    + rewrite join_cons. rewrite join_cons in IH.
      transitivity (String c (piece ++ String sep (join sep (next :: pieces))));
        [reflexivity|now rewrite IH].
Qed.

(** A second piece exists exactly when the separator occurs. *)
Lemma split_second sep s :
  nth_error (split sep s) 1 = None <-> occurs sep s = false.
Proof.
  induction s as [|c rest IH]; simpl; [tauto|].
  destruct (Ascii.eqb c sep); simpl.
  - destruct (split_cons sep rest) as (piece & pieces & ->). simpl.
    split; discriminate.
  - destruct (split_cons sep rest) as (piece & pieces & Hsplit).
    rewrite Hsplit in *. exact IH.
Qed.

Lemma lstrip_blank s : blank s = true -> lstrip s = EmptyString.
Proof.
  induction s as [|c rest IH]; simpl; [reflexivity|].
  intros [Hc Hrest]%andb_true_iff. rewrite Hc. auto.
Qed.

Lemma rstrip_empty s : rstrip s = EmptyString <-> blank s = true.
Proof.
  induction s as [|c rest IH]; simpl; [tauto|].
  destruct (rstrip rest) as [|c' kept].
  - destruct (is_space c); simpl; [tauto|]. split; discriminate.
  - split; [discriminate|]. intros [_ Hrest]%andb_true_iff.
    apply IH in Hrest. discriminate.
Qed.

Lemma lstrip_is_blank s : blank (lstrip s) = blank s.
Proof.
  induction s as [|c rest IH]; simpl; [reflexivity|].
  destruct (is_space c) eqn:Hc; simpl; [exact IH|now rewrite Hc].
Qed.

Lemma strip_empty s : strip s = EmptyString <-> blank s = true.
Proof. unfold strip. now rewrite rstrip_empty, lstrip_is_blank. Qed.

(** What [rstrip] keeps does not end in white space. *)
Lemma rstrip_last s :
  rstrip s = EmptyString \/
  exists c, last_char (rstrip s) = Some c /\ is_space c = false.
Proof.
  induction s as [|c rest IH]; simpl; [now left|].
  destruct (rstrip rest) as [|c' kept] eqn:Hrest.
  - destruct (is_space c) eqn:Hc; [now left|]. right. exists c. auto.
  - right. destruct IH as [IH|(c0 & Hlast & Hc0)]; [discriminate|].
    exists c0. split; [|exact Hc0]. exact Hlast.
Qed.

Lemma newline_is_space : is_space newline = true.
Proof. reflexivity. Qed.

(** The last piece of a string that ends in another character than the
    separator is not empty. *)
Lemma split_last_piece sep s c :
  last_char s = Some c -> c <> sep ->
  exists piece, last (split sep s) = Some piece /\ piece <> EmptyString.
Proof.
  induction s as [|c0 rest IH]; [discriminate|].
  intros Hlast Hne. simpl split.
  destruct rest as [|c1 rest'].
  - injection Hlast as ->. simpl.
    destruct (Ascii.eqb_spec c sep); [contradiction|].
    exists (String c EmptyString). split; [reflexivity|discriminate].
  - change (last_char (String c0 (String c1 rest'))) with
      (last_char (String c1 rest')) in Hlast.
    destruct (IH Hlast Hne) as (piece & Hpiece & Hnonempty).
    destruct (split_cons sep (String c1 rest')) as (p & ps & Hsplit).
    rewrite Hsplit in *.
    destruct (Ascii.eqb c0 sep).
    + exists piece. split; [|exact Hnonempty].
      change (last (EmptyString :: p :: ps)) with (last (p :: ps)). exact Hpiece.
    + destruct ps as [|p' ps'].
      * simpl in Hpiece. injection Hpiece as <-.
        exists (String c0 p). split; [reflexivity|discriminate].
      * exists piece. split; [|exact Hnonempty].
        change (last (String c0 p :: p' :: ps')) with (last (p' :: ps')).
        exact Hpiece.
Qed.

Lemma last_lines_suffix {A} (lines : list A) n : last_lines lines n `suffix_of` lines.
Proof. unfold last_lines. apply suffix_drop. Qed.

Lemma last_lines_zero {A} (lines : list A) : last_lines lines 0 = lines.
Proof.
  unfold last_lines. simpl.
  replace (Z.to_nat (Z.min (- 0) (Z.of_nat (length lines)))) with 0 by lia.
  reflexivity.
Qed.

Lemma last_lines_positive {A} (lines : list A) n :
  (0 < n)%Z -> last_lines lines n = drop (length lines - Z.to_nat n) lines.
Proof.
  intros Hn. unfold last_lines.
  destruct (Z.ltb_spec 0 n); [|lia]. f_equal. lia.
Qed.

(** X12. [lastlog] prints a tail of the selected lines, but [lastlog(0)]
    prints all of them, since [lines[-0:]] is the whole list; for a positive
    [n] it prints the last [n] selected lines, or all of them when there are
    fewer. *)
Theorem lastlog_prints_tail (logged : string) (prefix level : option string)
    (lines : list string) :
  selected logged prefix level = Some lines ->
  lastlog logged 0 prefix level = Printed lines /\
  (forall n, (0 < n)%Z ->
     lastlog logged n prefix level
     = Printed (drop (length lines - Z.to_nat n) lines) /\
     (Z.of_nat (length lines) <= n ->
      lastlog logged n prefix level = Printed lines)%Z) /\
  (forall n, exists out,
     lastlog logged n prefix level = Printed out /\ out `suffix_of` lines).
Proof.
  intros Hsel. unfold lastlog. rewrite Hsel.
  split; [now rewrite last_lines_zero|]. split.
  - intros n Hn. rewrite (last_lines_positive lines n Hn). split; [reflexivity|].
    intros Hall. replace (length lines - Z.to_nat n) with 0 by lia. reflexivity.
  - intros n. eexists. split; [reflexivity|apply last_lines_suffix].
Qed.

Lemma lastlog_prints_tail_witness :
  lastlog example_logged 0 (Some "p2p"%string) None
  = Printed ["INFO:p2p started"; "INFO:p2p.peer connected"]%string /\
  (forall n, (0 < n)%Z ->
     lastlog example_logged n (Some "p2p"%string) None
     = Printed (drop (length ["INFO:p2p started"; "INFO:p2p.peer connected"]%string
                      - Z.to_nat n)
                     ["INFO:p2p started"; "INFO:p2p.peer connected"]%string) /\
     (Z.of_nat (length ["INFO:p2p started"; "INFO:p2p.peer connected"]%string) <= n ->
      lastlog example_logged n (Some "p2p"%string) None
      = Printed ["INFO:p2p started"; "INFO:p2p.peer connected"]%string)%Z) /\
  (forall n, exists out,
     lastlog example_logged n (Some "p2p"%string) None = Printed out /\
     out `suffix_of` ["INFO:p2p started"; "INFO:p2p.peer connected"]%string).
Proof.
  apply (lastlog_prints_tail example_logged (Some "p2p"%string) None).
  reflexivity.
Defined.

Lemma blank_lines s : blank s = true -> split newline (strip s) = [EmptyString].
Proof. intros Hblank. apply strip_empty in Hblank. now rewrite Hblank. Qed.

Lemma given_some o p : given o = Some p -> o = Some p /\ p <> EmptyString.
Proof.
  destruct o as [[|c rest]|]; simpl; try discriminate.
  intros [= <-]. split; [reflexivity|discriminate].
Qed.

Lemma given_nonempty p : p <> EmptyString -> given (Some p) = Some p.
Proof. destruct p; [contradiction|reflexivity]. Qed.

(** X13. On a log that holds nothing but white space [lastlog] prints one
    empty line for every [n >= 0]; with a [prefix] it raises [IndexError],
    the empty line having no colon; with a [level] alone it prints
    nothing. *)
Theorem lastlog_blank_log (logged : string) :
  blank logged = true ->
  (forall n, (0 <= n)%Z -> lastlog logged n None None = Printed [EmptyString]) /\
  (forall n prefix level,
      prefix <> EmptyString -> lastlog logged n (Some prefix) level = IndexError) /\
  (forall n level,
      level <> EmptyString -> lastlog logged n None (Some level) = Printed []).
Proof.
  intros Hblank. pose proof (blank_lines logged Hblank) as Hlines.
  unfold lastlog, selected. rewrite Hlines. split; [|split].
  - intros n Hn. simpl. destruct (decide (n = 0)%Z) as [->|Hpos].
    + now rewrite last_lines_zero.
    + rewrite last_lines_positive by lia. simpl length.
      replace (1 - Z.to_nat n) with 0 by lia. reflexivity.
  - intros n prefix level Hprefix. rewrite (given_nonempty prefix Hprefix).
    reflexivity.
  - intros n level Hlevel. simpl given at 1.
    rewrite (given_nonempty level Hlevel). unfold with_level. simpl.
    destruct level as [|c rest]; [contradiction|]. simpl.
    unfold last_lines. now rewrite drop_nil.
Qed.

Lemma lastlog_blank_log_witness :
  (forall n, (0 <= n)%Z ->
             lastlog (String newline EmptyString) n None None = Printed [EmptyString]) /\
  (forall n prefix level,
      prefix <> EmptyString ->
      lastlog (String newline EmptyString) n (Some prefix) level = IndexError) /\
  (forall n level,
      level <> EmptyString ->
      lastlog (String newline EmptyString) n None (Some level) = Printed []).
Proof.
  apply (lastlog_blank_log (String newline EmptyString)). reflexivity.
Defined.

Lemma with_prefix_fails prefix lines :
  with_prefix prefix lines = None
  <-> exists line, In line lines /\ occurs colon line = false.
Proof.
  induction lines as [|line rest IH]; cbn [with_prefix].
  - split; [discriminate|]. intros (line & [] & _).
  - destruct (nth_error (split colon line) 1) as [name|] eqn:Hname.
    + assert (occurs colon line = true) as Hcolon.
      { destruct (occurs colon line) eqn:Hc; [reflexivity|].
        apply split_second in Hc. congruence. }
      destruct (with_prefix prefix rest) as [kept|].
      * split; [intros H; discriminate H|].
        intros (l & [<-|Hl] & Hno); [congruence|].
        destruct IH as [_ IH]. assert (Some kept = None) as Habsurd by eauto.
        discriminate Habsurd.
      * split; [intros _|reflexivity].
        destruct IH as [IH _]. destruct (IH eq_refl) as (l & Hl & Hno).
        exists l. split; [now right|exact Hno].
    + split; [intros _|reflexivity]. exists line.
      split; [now left|]. now apply split_second.
Qed.

(** X14. With a [prefix], [lastlog] raises [IndexError] exactly when some
    line of the log holds no colon, whatever [n] and [level] are; without a
    [prefix] it never raises. *)
Theorem lastlog_index_error (logged : string) (n : Z) (prefix : string)
    (level : option string) :
  prefix <> EmptyString ->
  (lastlog logged n (Some prefix) level = IndexError
   <-> exists line, In line (split newline (strip logged)) /\
                    occurs colon line = false) /\
  lastlog logged n None level <> IndexError.
Proof.
  intros Hprefix. unfold lastlog, selected.
  rewrite (given_nonempty prefix Hprefix). split.
  - rewrite <- (with_prefix_fails prefix).
    destruct (with_prefix prefix (split newline (strip logged))); simpl;
      split; intros H; try discriminate H; reflexivity.
  - simpl. discriminate.
Qed.

Lemma lastlog_index_error_witness :
  (lastlog "no colon here"%string 5 (Some "p2p"%string) None = IndexError
   <-> exists line, In line (split newline (strip "no colon here"%string)) /\
                    occurs colon line = false) /\
  lastlog "no colon here"%string 5 None None <> IndexError.
Proof.
  apply (lastlog_index_error "no colon here"%string 5 "p2p"%string None).
  discriminate.
Defined.

Lemma with_prefix_kept prefix lines kept :
  with_prefix prefix lines = Some kept ->
  kept `sublist_of` lines /\
  Forall (fun line => exists name,
            nth_error (split colon line) 1 = Some name /\
            String.prefix prefix name = true) kept.
Proof.
  revert kept. induction lines as [|line rest IH]; cbn [with_prefix]; intros kept.
  - intros [= <-]. split; constructor.
  - destruct (nth_error (split colon line) 1) as [name|] eqn:Hname; [|discriminate].
    destruct (with_prefix prefix rest) as [kept'|]; [|discriminate].
    destruct (IH kept' eq_refl) as [Hsub Hall].
    destruct (String.prefix prefix name) eqn:Hp; intros [= <-].
    + split; [now apply sublist_skip|]. constructor; eauto.
    + split; [now apply sublist_cons|exact Hall].
Qed.

Lemma with_level_kept level lines :
  with_level level lines `sublist_of` lines /\
  Forall (fun line => hd EmptyString (split colon line) = level)
         (with_level level lines).
Proof.
  unfold with_level. induction lines as [|line rest [IHsub IHall]]; simpl.
  - split; constructor.
  - destruct (String.eqb_spec (hd EmptyString (split colon line)) level).
    + split; [now apply sublist_skip|now constructor].
    + split; [now apply sublist_cons|exact IHall].
Qed.

Lemma Forall_of_sublist {A} (P : A -> Prop) (kept lines : list A) :
  Forall P lines -> kept `sublist_of` lines -> Forall P kept.
Proof.
  intros Hall Hsub. induction Hsub as [|x l1 l2 _ IH|x l1 l2 _ IH].
  - constructor.
  - apply Forall_cons in Hall as [Hx Hall]. constructor; auto.
  - apply Forall_cons in Hall as [_ Hall]. auto.
Qed.

(** X15. What [lastlog] prints are lines of the log, in their order, none
    holding a newline; with a [prefix] each has, after its first colon, a
    field that starts with the prefix, and with a [level] each has the
    level as the field before its first colon. *)
Theorem lastlog_prints_selected (logged : string) (n : Z)
    (prefix level : option string) (out : list string) :
  lastlog logged n prefix level = Printed out ->
  out `sublist_of` split newline (strip logged) /\
  Forall (fun line => occurs newline line = false) out /\
  (forall p, given prefix = Some p ->
     Forall (fun line => exists name,
               nth_error (split colon line) 1 = Some name /\
               String.prefix p name = true) out) /\
  (forall l, given level = Some l ->
     Forall (fun line => hd EmptyString (split colon line) = l) out).
Proof.
  unfold lastlog, selected.
  set (lines := split newline (strip logged)).
  assert (forall kept, kept `sublist_of` lines ->
                       last_lines kept n `sublist_of` lines) as Htail.
  { intros kept Hkept. etransitivity; [|exact Hkept].
    unfold last_lines. apply sublist_drop. }
  assert (forall (P : string -> Prop) kept,
             Forall P kept -> Forall P (last_lines kept n)) as Hkeep.
  { intros P kept Hall. unfold last_lines. now apply Forall_drop. }
  assert (forall kept, kept `sublist_of` lines ->
                       Forall (fun line => occurs newline line = false) kept)
    as Hnl.
  { intros kept Hkept. eapply Forall_of_sublist; [|exact Hkept].
    apply split_pieces_without_sep. }
  destruct (given prefix) as [p|] eqn:Hprefix.
  - destruct (with_prefix p lines) as [kept|] eqn:Hkept; [|discriminate].
    apply with_prefix_kept in Hkept as [Hsub Hall].
    destruct (given level) as [l|] eqn:Hlevel; intros [= <-].
    + destruct (with_level_kept l kept) as [Hsub' Hall'].
      assert (with_level l kept `sublist_of` lines) as Hsub''
        by (etransitivity; eassumption).
      split; [auto|]. split; [auto|]. split.
      * intros p' [= <-]. apply Hkeep.
        eapply Forall_of_sublist; [exact Hall|exact Hsub'].
      * intros l' [= <-]. auto.
    + split; [auto|]. split; [auto|]. split; [|discriminate].
      intros p' [= <-]. auto.
  - destruct (given level) as [l|] eqn:Hlevel; intros [= <-].
    + destruct (with_level_kept l lines) as [Hsub' Hall'].
      split; [auto|]. split; [auto|]. split; [discriminate|].
      intros l' [= <-]. auto.
    + split; [now apply Htail|]. split; [now apply Hkeep, Hnl|].
      split; discriminate.
Qed.

Lemma lastlog_prints_selected_witness :
  ["INFO:p2p.peer connected"%string]
    `sublist_of` split newline (strip example_logged) /\
  Forall (fun line => occurs newline line = false)
         ["INFO:p2p.peer connected"%string] /\
  (forall p, given (Some "p2p"%string) = Some p ->
     Forall (fun line => exists name,
               nth_error (split colon line) 1 = Some name /\
               String.prefix p name = true)
            ["INFO:p2p.peer connected"%string]) /\
  (forall l, given (Some "INFO"%string) = Some l ->
     Forall (fun line => hd EmptyString (split colon line) = l)
            ["INFO:p2p.peer connected"%string]).
Proof.
  apply (lastlog_prints_selected example_logged 1
           (Some "p2p"%string) (Some "INFO"%string)).
  reflexivity.
Defined.

(** X16. [lasterr()], with its default [n = 1], prints exactly one line,
    the last line of the captured text once surrounding white space is
    stripped; that line is empty only when the text holds nothing but white
    space. *)
Theorem lasterr_default (err : string) :
  exists line,
    lasterr err 1 = [line] /\
    last (split newline (strip err)) = Some line /\
    (line = EmptyString <-> blank err = true).
Proof.
  unfold lasterr.
  destruct (split_cons newline (strip err)) as (piece & pieces & Hsplit).
  assert (exists line, last (split newline (strip err)) = Some line) as [line Hlast].
  { rewrite Hsplit. destruct (last (piece :: pieces)) eqn:Hl; [eauto|].
    apply last_None in Hl. discriminate. }
  exists line. split; [|split; [exact Hlast|]].
  - rewrite last_lines_positive by lia.
    apply last_Some in Hlast as [front Hfront]. rewrite Hfront.
    rewrite length_app. simpl.
    replace (length front + 1 - Z.to_nat 1) with (length front) by lia.
    rewrite drop_app_length. reflexivity.
  - split.
    + intros ->. unfold strip in *.
      destruct (rstrip_last (lstrip err)) as [Hempty|(c & Hc & Hspace)].
      * apply rstrip_empty in Hempty. now rewrite lstrip_is_blank in Hempty.
      * assert (c <> newline) as Hne by (intros ->; now rewrite newline_is_space in Hspace).
        destruct (split_last_piece newline _ c Hc Hne) as (p & Hp & Hnonempty).
        congruence.
    + intros Hblank. rewrite (blank_lines err Hblank) in Hlast.
      now injection Hlast as <-.
Qed.

(** X17. [lastlog(0)] and [lasterr(0)] print the whole text: joined by
    newlines, the printed lines are the text without its surrounding white
    space, and splitting never yields an empty list of lines. *)
Theorem lastlog_all_lines (logged : string) :
  exists lines,
    lastlog logged 0 None None = Printed lines /\
    lasterr logged 0 = lines /\
    lines <> [] /\
    join newline lines = strip logged.
Proof.
  exists (split newline (strip logged)).
  split; [unfold lastlog, selected; simpl; now rewrite last_lines_zero|].
  split; [unfold lasterr; apply last_lines_zero|].
  split; [|apply join_split].
  destruct (split_cons newline (strip logged)) as (p & ps & ->). discriminate.
Qed.

End Console_log.

Section SigINT_handler.
Import SigINT.

Local Open Scope nat_scope.

Lemma active_with_new (ws : list (callback * bool)) cb es ts :
  active (mkProcess (ws ++ [(cb, true)]) es ts)
  = map fst (List.filter snd ws) ++ [cb].
Proof. unfold active. simpl. now rewrite List.filter_app, map_app. Qed.

Lemma cancel_latest (ws : list (callback * bool)) cb b :
  alter (fun entry : callback * bool => (fst entry, false)) (length ws)
        (ws ++ [(cb, b)])
  = ws ++ [(cb, false)].
Proof.
  replace (length ws) with (length ws + 0) at 1 by lia.
  now rewrite alter_app_r.
Qed.

Lemma active_after_cancel (ws : list (callback * bool)) (cb : callback) :
  map fst (List.filter snd (ws ++ [(cb, false)])) = map fst (List.filter snd ws).
Proof. rewrite List.filter_app. simpl. now rewrite app_nil_r. Qed.

Lemma armed_active base s : armed base s -> active (fst s) = base ++ [handle_int].
Proof.
  destruct s as [[ws es ts] h]. intros (ws0 & Hws & <- & _). simpl in Hws.
  subst ws. apply active_with_new.
Qed.

Lemma forced_active base s : forced base s -> active (fst s) = base ++ [handle_force].
Proof.
  destruct s as [[ws es ts] h]. intros (ws0 & Hws & <- & _). simpl in Hws.
  subst ws. apply active_with_new.
Qed.

Lemma init_armed p : armed (active p) (init p).
Proof.
  destruct p as [ws es ts]. exists ws. unfold init, install_handler. simpl. auto.
Qed.

Lemma handle_int_forces base s : armed base s -> forced base (on_handle_int s).
Proof.
  destruct s as [[ws es ts] [i f]].
  intros (ws0 & Hws & Hbase & Hi & Hf). simpl in *. subst ws i f.
  unfold on_handle_int, install_handler_force, cancel. simpl.
  rewrite cancel_latest.
  exists (ws0 ++ [(handle_int, false)]). simpl.
  rewrite active_after_cancel, length_app. simpl. auto.
Qed.

Lemma install_handler_arms base s : forced base s -> armed base (install_handler s).
Proof.
  destruct s as [[ws es ts] [i f]].
  intros (ws0 & Hws & Hbase & Hi & Hf). simpl in *. subst ws i f.
  unfold install_handler, cancel. simpl.
  rewrite cancel_latest.
  exists (ws0 ++ [(handle_force, false)]). simpl.
  rewrite active_after_cancel, length_app. simpl. auto.
Qed.

(** X18. The handler keeps exactly one SIGINT watcher of its own active.
    Once constructed it is [handle_int], beside the callbacks the process
    already had; a ^C replaces it by [handle_force]; reinstalling the
    regular handler, as the unanswered prompt does, replaces that by
    [handle_int] again, so the round can be repeated without end and
    without a watcher left behind. *)
Theorem sigint_handler_single_watcher (p : process) :
  (armed (active p) (init p) /\
   active (fst (init p)) = active p ++ [handle_int]) /\
  (forall base s,
      armed base s ->
      forced base (on_handle_int s) /\
      active (fst (on_handle_int s)) = base ++ [handle_force]) /\
  (forall base s,
      forced base s ->
      armed base (install_handler s) /\
      active (fst (install_handler s)) = base ++ [handle_int]).
Proof.
  split; [|split].
  - split; [apply init_armed|]. apply armed_active, init_armed.
  - intros base s Harmed. split; [now apply handle_int_forces|].
    now apply forced_active, handle_int_forces.
  - intros base s Hforced. split; [now apply install_handler_arms|].
    now apply armed_active, install_handler_arms.
Qed.

Section Confirm_facts.

Variable number : Type.
Variable sub : number -> number -> number.
Variable lt : number -> number -> bool.
Variable ENTER_CONSOLE_TIMEOUT : number.

#[local] Abbreviation prompt_loop := (prompt_loop number sub lt ENTER_CONSOLE_TIMEOUT).
#[local] Abbreviation confirm_enter_console :=
  (confirm_enter_console number sub lt ENTER_CONSOLE_TIMEOUT).
#[local] Abbreviation waiting i k :=
  (lt (sub (time number i (1 + 2 * k)) (time number i 0)) ENTER_CONSOLE_TIMEOUT).

(** The pass at which the loop ends, and why. *)
Lemma prompt_loop_exit (i : input number) fuel :
  forall k exit,
    prompt_loop i (time number i 0) k fuel = Some exit ->
    exists j, k <= j < k + fuel /\
              (forall m, k <= m < j ->
                         waiting i m = true /\ select number i m = NotReady) /\
              match exit with
              | TimedOut => waiting i j = false
              | Answered => waiting i j = true /\ select number i j = Ready
              | GotEINTR => waiting i j = true /\ select number i j = Interrupted
              | GotError => waiting i j = true /\ select number i j = Failed
              end.
Proof.
  induction fuel as [|fuel IH]; intros k exit; [discriminate|].
  cbn [SigINT.prompt_loop].
  destruct (waiting i k) eqn:Hwait.
  - destruct (select number i k) eqn:Hsel.
    + intros [= <-]. exists k. split; [lia|]. split; [intros m Hm; lia|auto].
    + intros Hrest. destruct (IH (S k) exit Hrest) as (j & Hj & Hbefore & Hend).
      exists j. split; [lia|]. split; [|exact Hend].
      intros m Hm. destruct (decide (m = k)) as [->|Hne]; [auto|].
      apply Hbefore. lia.
    + intros [= <-]. exists k. split; [lia|]. split; [intros m Hm; lia|auto].
    + intros [= <-]. exists k. split; [lia|]. split; [intros m Hm; lia|auto].
  - intros [= <-]. exists k. split; [lia|]. split; [intros m Hm; lia|auto].
Qed.

(** Once the clock shows the timeout reached at some pass, the loop has
    ended by that pass. *)
Lemma prompt_loop_ends (i : input number) j :
  waiting i j = false ->
  forall fuel k, k <= j < k + fuel ->
                 exists exit, prompt_loop i (time number i 0) k fuel = Some exit.
Proof.
  intros Hstop. induction fuel as [|fuel IH]; intros k Hk; [lia|].
  cbn [SigINT.prompt_loop].
  destruct (waiting i k) eqn:Hwait; [|eauto].
  destruct (select number i k); eauto.
  apply IH. destruct (decide (j = k)) as [->|Hne]; [congruence|lia].
Qed.

(** X19. When [_confirm_enter_console] runs after a ^C, the event is set
    only if [select] reported stdin ready, and then no SIGINT watcher of the
    handler stays active; when nobody answers in time the regular handler
    is armed again and the event is left as it was; when [select] is
    interrupted the process sends itself SIGTERM; and [None.cancel()] is
    never met. *)
Theorem confirm_enter_console_outcomes (i : input number) (base : list callback)
    (s s' : process * handler) (fuel : nat) (status : confirm_status) :
  forced base s ->
  confirm_enter_console i s fuel = Some (status, s') ->
  match status with
  | Entered =>
      active (fst s') = base /\ event_set (fst s') = true /\
      sigterm_sent (fst s') = sigterm_sent (fst s) /\
      exists k, select number i k = Ready /\
                forall m, m < k -> select number i m = NotReady
  | Resumed =>
      armed base s' /\ event_set (fst s') = event_set (fst s) /\
      sigterm_sent (fst s') = sigterm_sent (fst s) /\
      exists k, waiting i k = false /\
                forall m, m < k -> select number i m = NotReady
  | Killed =>
      forced base s' /\ sigterm_sent (fst s') = true /\
      event_set (fst s') = event_set (fst s) /\
      exists k, select number i k = Interrupted
  | SelectError =>
      s' = s /\ exists k, select number i k = Failed
  | CancelOnNone => False
  end.
Proof.
  intros Hforced. unfold SigINT.confirm_enter_console.
  destruct (prompt_loop i (time number i 0) 0 fuel) as [exit|] eqn:Hloop;
    [|discriminate].
  apply prompt_loop_exit in Hloop as (j & Hj & Hbefore & Hend).
  assert (forall m, m < j -> select number i m = NotReady) as Hquiet.
  { intros m Hm. apply Hbefore. lia. }
  destruct exit.
  - destruct s as [[ws es ts] [r f]].
    destruct Hforced as (ws0 & Hws & Hbase & Hr & Hf). simpl in *. subst ws r f.
    intros [= <- <-]. simpl. unfold active. simpl.
    rewrite cancel_latest, active_after_cancel.
    split; [exact Hbase|]. split; [reflexivity|]. split; [reflexivity|].
    exists j. split; [apply Hend|exact Hquiet].
  - intros [= <- <-]. split; [now apply install_handler_arms|].
    destruct s as [[ws es ts] [r f]]. unfold install_handler. simpl.
    destruct f; simpl;
      (split; [reflexivity|]; split; [reflexivity|];
       exists j; split; [apply Hend|exact Hquiet]).
  - intros [= <- <-]. destruct s as [[ws es ts] h]. simpl.
    split; [exact Hforced|]. split; [reflexivity|]. split; [reflexivity|].
    exists j. apply Hend.
  - intros [= <- <-]. split; [reflexivity|]. exists j. apply Hend.
Qed.

(** The outcome of the loop does not depend on the passes left over. *)
Lemma prompt_loop_more_fuel (i : input number) start fuel :
  forall k exit fuel',
    prompt_loop i start k fuel = Some exit ->
    fuel <= fuel' ->
    prompt_loop i start k fuel' = Some exit.
Proof.
  induction fuel as [|fuel IH]; intros k exit fuel' Hrun Hle; [discriminate|].
  destruct fuel' as [|fuel']; [lia|].
  cbn [SigINT.prompt_loop] in *.
  destruct (lt (sub (time number i (1 + 2 * k)) start) ENTER_CONSOLE_TIMEOUT);
    [|exact Hrun].
  destruct (select number i k); try exact Hrun.
  apply IH; [exact Hrun|lia].
Qed.

(** X20. The prompt does not hang once the clock moves on: if at some
    pass the clock shows [ENTER_CONSOLE_TIMEOUT] reached, that is
    [time.time() - start < ENTER_CONSOLE_TIMEOUT] is false,
    [_confirm_enter_console] has ended by that pass, whatever [select]
    reported, and no later pass changes how it ended. *)
Theorem confirm_enter_console_ends (i : input number) (s : process * handler)
    (j : nat) :
  waiting i j = false ->
  exists result,
    forall fuel, j < fuel -> confirm_enter_console i s fuel = Some result.
Proof.
  intros Hstop.
  destruct (prompt_loop_ends i j Hstop (S j) 0 ltac:(lia)) as [exit Hexit].
  assert (forall fuel, j < fuel ->
                       prompt_loop i (time number i 0) 0 fuel = Some exit)
    as Hany.
  { intros fuel Hfuel. apply (prompt_loop_more_fuel i _ (S j)); [exact Hexit|lia]. }
  unfold SigINT.confirm_enter_console.
  destruct exit.
  - destruct (installed_force (snd s)) as [w|] eqn:Hw.
    + exists (Entered, (set_event (cancel (fst s) w), snd s)).
      intros fuel Hfuel. now rewrite (Hany fuel Hfuel).
    + exists (CancelOnNone, s). intros fuel Hfuel. now rewrite (Hany fuel Hfuel).
  - exists (Resumed, install_handler s).
    intros fuel Hfuel. now rewrite (Hany fuel Hfuel).
  - exists (Killed, (on_handle_force (fst s), snd s)).
    intros fuel Hfuel. now rewrite (Hany fuel Hfuel).
  - exists (SelectError, s). intros fuel Hfuel. now rewrite (Hany fuel Hfuel).
Qed.

End Confirm_facts.

End SigINT_handler.

Section SigINT_examples.
Import SigINT.

Lemma confirm_enter_console_outcomes_witness :
  active (fst (set_event (cancel (fst (on_handle_int (init quiet))) 1),
               snd (on_handle_int (init quiet)))) = [] /\
  event_set (fst (set_event (cancel (fst (on_handle_int (init quiet))) 1),
                  snd (on_handle_int (init quiet)))) = true /\
  sigterm_sent (fst (set_event (cancel (fst (on_handle_int (init quiet))) 1),
                     snd (on_handle_int (init quiet))))
  = sigterm_sent (fst (on_handle_int (init quiet))) /\
  exists k, select Z answers_second k = Ready /\
            forall m, (m < k)%nat -> select Z answers_second m = NotReady.
Proof.
  apply (confirm_enter_console_outcomes Z Z.sub Z.ltb 3 answers_second []
           (on_handle_int (init quiet))
           (set_event (cancel (fst (on_handle_int (init quiet))) 1),
            snd (on_handle_int (init quiet)))
           5 Entered).
  - apply handle_int_forces. exact (init_armed quiet).
  - reflexivity.
Defined.

Lemma confirm_enter_console_ends_witness :
  exists result,
    forall fuel, (3 < fuel)%nat ->
      confirm_enter_console Z Z.sub Z.ltb 3 never_answers
        (on_handle_int (init quiet)) fuel = Some result.
Proof.
  apply (confirm_enter_console_ends Z Z.sub Z.ltb 3 never_answers
           (on_handle_int (init quiet)) 3).
  reflexivity.
Defined.

End SigINT_examples.

Section Objects_data_more.
Import Py Objects.

(** [list(xs)] on a list of the store. *)
Lemma py_list_returns (h : store) (xs : loc) (o : pyobject) :
  h !! xs = Some o ->
  issubclass (ob_type o) list_ = true ->
  py_list h xs
  = Returns (fresh (dom h), <[fresh (dom h) := mkObject list_ (ob_item o)]> h).
Proof. intros Hxs Hsub. unfold py_list. now rewrite Hxs, Hsub. Qed.

Lemma data_returns (h : store) (xs : loc) (o : pyobject) :
  h !! xs = Some o ->
  issubclass (ob_type o) FlatList = true ->
  data h xs
  = Returns (fresh (dom h), <[fresh (dom h) := mkObject list_ (ob_item o)]> h).
Proof.
  intros Hxs Hsub. unfold data. rewrite Hxs, Hsub.
  apply py_list_returns; [exact Hxs|].
  destruct (ob_type o); vm_compute in Hsub |- *; congruence.
Qed.

Lemma fresh_not_in (h : store) (l : loc) (o : pyobject) :
  h !! l = Some o -> fresh (dom h) <> l.
Proof.
  intros Hl Heq. pose proof (is_fresh (dom h)) as Hfresh.
  rewrite Heq in Hfresh. apply Hfresh. apply elem_of_dom. eauto.
Qed.

(** X21. Reading [xs.data] twice gives two different list objects, both
    different from [xs], that hold the same elements; the first copy and
    [xs] are not changed by the second read.  What [data] returns is a
    plain [list], whatever subclass of [FlatList] [xs] is: reading [data]
    on it raises [AttributeError]. *)
Theorem FlatList_data_read_twice (h : store) (xs : loc) (o : pyobject) :
  h !! xs = Some o ->
  issubclass (ob_type o) FlatList = true ->
  exists r1 h1 r2 h2,
    data h xs = Returns (r1, h1) /\
    data h1 xs = Returns (r2, h2) /\
    r1 <> r2 /\ r1 <> xs /\ r2 <> xs /\
    h2 !! r1 = h1 !! r1 /\
    h2 !! xs = Some o /\
    list_eq h2 r1 r2 = true /\
    (exists copy, h2 !! r1 = Some copy /\ ob_type copy = list_) /\
    data h2 r1 = Raises (AttributeError "data") /\
    data h2 r2 = Raises (AttributeError "data").
Proof.
  intros Hxs Hsub.
  set (r1 := fresh (dom h)).
  set (h1 := <[r1 := mkObject list_ (ob_item o)]> h).
  assert (r1 <> xs) as Hr1 by exact (fresh_not_in h xs o Hxs).
  assert (h1 !! xs = Some o) as Hxs1.
  { unfold h1. now rewrite lookup_insert_ne. }
  assert (h1 !! r1 = Some (mkObject list_ (ob_item o))) as Hcopy1.
  { unfold h1. apply lookup_insert_eq. }
  set (r2 := fresh (dom h1)).
  set (h2 := <[r2 := mkObject list_ (ob_item o)]> h1).
  assert (r2 <> xs) as Hr2 by exact (fresh_not_in h1 xs o Hxs1).
  assert (r2 <> r1) as Hr21 by exact (fresh_not_in h1 r1 _ Hcopy1).
  assert (h2 !! r1 = Some (mkObject list_ (ob_item o))) as Hcopy12.
  { unfold h2. now rewrite lookup_insert_ne. }
  assert (h2 !! r2 = Some (mkObject list_ (ob_item o))) as Hcopy2.
  { unfold h2. apply lookup_insert_eq. }
  exists r1, h1, r2, h2.
  split; [exact (data_returns h xs o Hxs Hsub)|].
  split; [exact (data_returns h1 xs o Hxs1 Hsub)|].
  split; [congruence|]. split; [exact Hr1|]. split; [exact Hr2|].
  split; [congruence|].
  split; [unfold h2; now rewrite lookup_insert_ne|].
  split.
  { unfold list_eq. rewrite Hcopy12, Hcopy2. now apply bool_decide_eq_true. }
  split; [eauto|].
  split; unfold data; [rewrite Hcopy12|rewrite Hcopy2]; reflexivity.
Qed.

Lemma FlatList_data_read_twice_witness :
  exists r1 h1 r2 h2,
    data two_channels 3%positive = Returns (r1, h1) /\
    data h1 3%positive = Returns (r2, h2) /\
    r1 <> r2 /\ r1 <> 3%positive /\ r2 <> 3%positive /\
    h2 !! r1 = h1 !! r1 /\
    h2 !! 3%positive = Some (mkObject ChannelList [1%positive; 2%positive]) /\
    list_eq h2 r1 r2 = true /\
    (exists copy, h2 !! r1 = Some copy /\ ob_type copy = list_) /\
    data h2 r1 = Raises (AttributeError "data") /\
    data h2 r2 = Raises (AttributeError "data").
Proof.
  apply (FlatList_data_read_twice two_channels 3%positive
           (mkObject ChannelList [1%positive; 2%positive])).
  - reflexivity.
  - reflexivity.
Defined.

End Objects_data_more.

Section TokenNetworks_saturation.
Import Py TokenNetworks.

Local Open Scope nat_scope.

(** [not_saturated] is empty exactly when every manager is saturated. *)
Lemma not_saturated_nil (cms : list connection_manager) :
  not_saturated cms = [] <-> saturated cms.
Proof.
  unfold not_saturated, saturated. induction cms as [|cm cms IH]; simpl.
  - split; [constructor|reflexivity].
  - destruct (Z.ltb_spec (Z.of_nat (length (open_channels cm)))
                         (initial_channel_target cm)) as [Hlt|Hge]; simpl.
    + split; [discriminate|]. intros Hall. inversion Hall; subst. lia.
    + rewrite IH. split; [now constructor|]. intros Hall. now inversion Hall.
Qed.

Lemma truth_not_saturated (cms : list connection_manager) :
  truth (not_saturated cms) = false <-> saturated cms.
Proof.
  rewrite <- not_saturated_nil. destruct (not_saturated cms); simpl.
  - tauto.
  - split; discriminate.
Qed.

(** The loop from any pass on: it waits for no more blocks than
    [max_wait] allows. *)
Lemma saturation_loop_ends (network : nat -> list connection_manager) :
  forall (left blocks fuel : nat),
    left < fuel ->
    exists more,
      more <= left /\
      saturation_loop network blocks (Z.of_nat left) fuel
      = Some (blocks + more, Z.of_nat (left - more)) /\
      (forall m, blocks <= m < blocks + more -> ~ saturated (network m)) /\
      (more < left -> saturated (network (blocks + more))).
Proof.
  induction left as [|left IH]; intros blocks fuel Hfuel;
    (destruct fuel as [|fuel]; [lia|]); cbn [saturation_loop].
  - exists 0. rewrite andb_false_r, Nat.add_0_r.
    split; [lia|]. split; [reflexivity|]. split; intros; lia.
  - destruct (truth (not_saturated (network blocks))) eqn:Htruth.
    + replace (Z.of_nat (S left) >? 0)%Z with true by (symmetry; apply Z.gtb_lt; lia).
      replace (Z.of_nat (S left) - 1)%Z with (Z.of_nat left) by lia.
      destruct (IH (S blocks) fuel ltac:(lia)) as (more & Hle & Hrun & Hbefore & Hend).
      exists (S more). split; [lia|].
      split; [rewrite Hrun; f_equal; f_equal; lia|].
      split.
      * intros m Hm. destruct (decide (m = blocks)) as [->|Hne].
        -- intros Hsat. apply truth_not_saturated in Hsat. congruence.
        -- apply Hbefore. lia.
      * intros Hmore. replace (blocks + S more) with (S blocks + more) by lia.
        apply Hend. lia.
    + exists 0. rewrite Nat.add_0_r. split; [lia|].
      split; [simpl; f_equal; f_equal; lia|].
      split; [intros; lia|]. intros _. now apply truth_not_saturated.
Qed.

(** X22. The test waits for at most twelve blocks for the managers to
    reach their channel targets: the loop ends after [blocks <= 12]
    waits, at the first block at which every manager has as many open
    channels as its [initial_channel_target], or after twelve blocks if
    there is none before; [max_wait] is then [12 - blocks].  The assertion
    that follows passes exactly when the managers are saturated at that
    block, and fails with [AssertionError] otherwise. *)
Theorem saturation_wait_bounded (network : nat -> list connection_manager)
    (fuel : nat) :
  12 < fuel ->
  exists blocks,
    blocks <= 12 /\
    saturation_loop network 0 12 fuel = Some (blocks, (12 - Z.of_nat blocks)%Z) /\
    (forall m, m < blocks -> ~ saturated (network m)) /\
    (blocks < 12 -> saturated (network blocks)) /\
    (forallb truth (open_channels_count (network 0)) = true ->
     (saturated (network blocks) ->
      wait_for_saturation network fuel = Some (Returns blocks)) /\
     (~ saturated (network blocks) ->
      blocks = 12 /\
      wait_for_saturation network fuel
      = Some (Raises (AssertionError EmptyString)))).
Proof.
  intros Hfuel.
  destruct (saturation_loop_ends network 12 0 fuel Hfuel)
    as (blocks & Hle & Hrun & Hbefore & Hend).
  simpl in Hrun, Hbefore, Hend.
  exists blocks. split; [exact Hle|].
  assert (saturation_loop network 0 12 fuel
          = Some (blocks, (12 - Z.of_nat blocks)%Z)) as Hloop.
  { change 12%Z with (Z.of_nat 12). rewrite Hrun. f_equal. f_equal. lia. }
  split; [exact Hloop|].
  split; [intros m Hm; apply Hbefore; lia|].
  split; [exact Hend|].
  intros Hopen. unfold wait_for_saturation. rewrite Hopen, Hloop.
  cbn [py_assert]. split.
  - intros Hsat. apply truth_not_saturated in Hsat. now rewrite Hsat.
  - intros Hnot. split.
    + destruct (decide (blocks = 12)) as [->|Hne]; [reflexivity|].
      exfalso. apply Hnot, Hend. lia.
    + destruct (truth (not_saturated (network blocks))) eqn:Htruth;
        [reflexivity|].
      exfalso. apply Hnot. now apply truth_not_saturated.
Qed.

Lemma saturation_wait_bounded_witness :
  exists blocks,
    blocks <= 12 /\
    saturation_loop slow_network 0 12 13 = Some (blocks, (12 - Z.of_nat blocks)%Z) /\
    (forall m, m < blocks -> ~ saturated (slow_network m)) /\
    (blocks < 12 -> saturated (slow_network blocks)) /\
    (forallb truth (open_channels_count (slow_network 0)) = true ->
     (saturated (slow_network blocks) ->
      wait_for_saturation slow_network 13 = Some (Returns blocks)) /\
     (~ saturated (slow_network blocks) ->
      blocks = 12 /\
      wait_for_saturation slow_network 13
      = Some (Raises (AssertionError EmptyString)))).
Proof.
  apply (saturation_wait_bounded slow_network 13). lia.
Defined.

End TokenNetworks_saturation.
